(** * todolist: a shallow embedding of [src/App.tsx] and [src/types.ts]

    The React component [App] keeps a collection of [Todo] objects in
    component state, mirrors it to one [localStorage] slot as JSON text,
    and sweeps it periodically for tasks whose due instant has arrived.

    The embedding follows the source function by function:
    - JavaScript strings are sequences of UTF-16 code units ([list N]);
    - [Todo] and [TodoUpdatePayload] are records, optional properties are
      [option]s;
    - every [setTodos (prevTodos => ...)] updater is a function on
      [list Todo];
    - [localStorage] is a finite map from keys to stored text;
    - an exception is the [Throw] branch of a completion type;
    - the platform functions the component calls ([Date], [JSON.parse],
      [JSON.stringify]) are modelled next to the code that calls them. *)

From Stdlib Require Import ZArith NArith Lia Ascii String Decimal DecimalFacts
  DecimalPos DecimalZ.
From stdpp Require Import base decidable option list gmap.

Local Open Scope Z_scope.

(** ** JavaScript strings *)

(** A string value is its sequence of UTF-16 code units. *)
Abbreviation jsstring := (list N).

(** Literals: each character of a Rocq string is one code unit. *)
Definition js (s : string) : jsstring :=
  N_of_ascii <$> list_ascii_of_string s.

(** [ToBoolean] on an optional string property: [undefined] and the empty
    string are falsy. *)
Definition truthy_string (v : option jsstring) : bool :=
  match v with
  | Some (_ :: _) => true
  | Some [] => false
  | None => false
  end.

(** [ToBoolean] on an optional boolean property: [undefined] is falsy. *)
Definition truthy_bool (v : option bool) : bool :=
  match v with
  | Some b => b
  | None => false
  end.

(** A template-literal substitution [${v}] of an optional string: an
    absent property prints as the text [undefined]. *)
Definition template (v : option jsstring) : jsstring :=
  match v with
  | Some s => s
  | None => js "undefined"
  end.

(** ** Data model ([src/types.ts]) *)

Record Todo := mkTodo {
  id : jsstring;
  text : jsstring;
  completed : bool;
  createdAt : Z;                 (* Timestamp (e.g., Date.now()) *)
  dueDate : option jsstring;     (* YYYY-MM-DD *)
  dueTime : option jsstring;     (* HH:MM *)
  notified : option bool         (* has a notification been sent *)
}.

#[global] Instance Todo_eq_dec : EqDecision Todo.
Proof. solve_decision. Defined.

Inductive FilterType := All | Active | Completed.

(** [Partial<Omit<Todo, 'id' | 'createdAt'>>]: each property is either
    absent ([None]) or present with a value of the property's type; for
    the optional properties of [Todo] that value may itself be
    [undefined]. *)
Record TodoUpdatePayload := mkUpdate {
  u_text : option jsstring;
  u_completed : option bool;
  u_dueDate : option (option jsstring);
  u_dueTime : option (option jsstring);
  u_notified : option (option bool)
}.

(** ** Task repository: the [setTodos] updaters of [App] *)

(** [{ ...todo, completed: !todo.completed }] *)
Definition flip_completed (todo : Todo) : Todo :=
  {| id := id todo; text := text todo; completed := negb (completed todo);
     createdAt := createdAt todo; dueDate := dueDate todo;
     dueTime := dueTime todo; notified := notified todo |}.

(** [{ ...t, notified: true }] *)
Definition set_notified (t : Todo) : Todo :=
  {| id := id t; text := text t; completed := completed t;
     createdAt := createdAt t; dueDate := dueDate t;
     dueTime := dueTime t; notified := Some true |}.

(** One property of an object spread: the payload's property wins when it
    is present. *)
Definition spread {A} (old : A) (upd : option A) : A :=
  match upd with
  | Some v => v
  | None => old
  end.

(** [{ ...todo, ...updates }] *)
Definition merge (todo : Todo) (updates : TodoUpdatePayload) : Todo :=
  {| id := id todo;
     text := spread (text todo) (u_text updates);
     completed := spread (completed todo) (u_completed updates);
     createdAt := createdAt todo;
     dueDate := spread (dueDate todo) (u_dueDate updates);
     dueTime := spread (dueTime todo) (u_dueTime updates);
     notified := spread (notified todo) (u_notified updates) |}.

(** [addTodo]: the two platform reads, [crypto.randomUUID()] and
    [Date.now()], are inputs of the embedding. *)
Definition addTodo (randomUUID : jsstring) (Date_now : Z)
    (text : jsstring) (dueDate dueTime : option jsstring)
    (prevTodos : list Todo) : list Todo :=
  let newTodo :=
    {| id := randomUUID; text := text; completed := false;
       createdAt := Date_now; dueDate := dueDate; dueTime := dueTime;
       notified := Some false |} in
  newTodo :: prevTodos.

Definition toggleTodo (i : jsstring) (prevTodos : list Todo) : list Todo :=
  (λ todo, if decide (id todo = i) then flip_completed todo else todo)
    <$> prevTodos.

Definition deleteTodo (i : jsstring) (prevTodos : list Todo) : list Todo :=
  filter (λ todo, id todo ≠ i) prevTodos.

Definition editTodo (i : jsstring) (updates : TodoUpdatePayload)
    (prevTodos : list Todo) : list Todo :=
  (λ todo, if decide (id todo = i) then merge todo updates else todo)
    <$> prevTodos.

Definition clearCompleted (prevTodos : list Todo) : list Todo :=
  filter (λ todo, negb (completed todo)) prevTodos.

(** The callback of [todos.filter] in [filteredTodos]. *)
Definition matches (filter : FilterType) (todo : Todo) : bool :=
  match filter with
  | Active => negb (completed todo)
  | Completed => completed todo
  | All => true
  end.

Definition filteredTodos (f : FilterType) (todos : list Todo) : list Todo :=
  filter (λ todo, matches f todo) todos.

Definition activeCount (todos : list Todo) : nat :=
  length (filter (λ todo, negb (completed todo)) todos).

Definition completedCount (todos : list Todo) : nat :=
  (length todos - activeCount todos)%nat.

(** ** Due-item scanner: the notification effect of [App] *)

(** The options object handed to [new Notification(title, options)]. *)
Record Notification := mkNotification {
  title : jsstring;
  body : jsstring;
  icon : jsstring
}.

#[global] Instance Notification_eq_dec : EqDecision Notification.
Proof. solve_decision. Defined.

Inductive NotificationPermission := default | granted | denied.

#[global] Instance NotificationPermission_eq_dec :
  EqDecision NotificationPermission.
Proof. solve_decision. Defined.

(** A [Date] object is its time value: milliseconds since the epoch, or
    [None] for the [NaN] time value of an invalid date. *)
Definition Date := option Z.

(** [a >= b] on two [Date]s compares their time values as numbers; a
    comparison with [NaN] is false. *)
Definition Date_ge (a b : Date) : bool :=
  match a, b with
  | Some x, Some y => bool_decide (y ≤ x)
  | _, _ => false
  end.

(** [new Notification('Todo Reminder!', { body: todo.text, icon: ... })] *)
Definition reminder (todo : Todo) : Notification :=
  {| title := js "Todo Reminder!"; body := text todo;
     icon := js "/favicon.ico" |}.

(** The updater queued for one alerted task:
    [prevTodos.map(t => t.id === todo.id ? { ...t, notified: true } : t)] *)
Definition markNotified (todo : Todo) (prevTodos : list Todo) : list Todo :=
  (λ t, if decide (id t = id todo) then set_notified t else t) <$> prevTodos.

(** All the updaters of one pass at once: every task whose identifier is
    that of an alerted task is marked. *)
Definition mark_all (fired prevTodos : list Todo) : list Todo :=
  (λ t, if decide (id t ∈ id <$> fired) then set_notified t else t)
    <$> prevTodos.

(** *** A reference [Date] parser

    The one format ECMA-262 fixes for local date-times,
    [YYYY-MM-DDTHH:mm], is what the date and time inputs of the form
    produce. [isoLocal tz] reads it in a zone [tz] minutes east of UTC and
    rejects everything else. It instantiates the scanner in the examples. *)

Definition digit (c : N) : option Z :=
  if bool_decide (48 ≤ c ≤ 57)%N then Some (Z.of_N c - 48) else None.

Definition two_digits (a b : N) : option Z :=
  x ← digit a; y ← digit b; Some (10 * x + y).

Definition four_digits (a b c d : N) : option Z :=
  x ← two_digits a b; y ← two_digits c d; Some (100 * x + y).

Definition leap_year (y : Z) : bool :=
  bool_decide (y mod 4 = 0)
  && (bool_decide (y mod 100 ≠ 0) || bool_decide (y mod 400 = 0)).

Definition days_in_month (y m : Z) : Z :=
  if bool_decide (m = 2) then (if leap_year y then 29 else 28)
  else if bool_decide (m = 4 ∨ m = 6 ∨ m = 9 ∨ m = 11) then 30
  else 31.

(** Days from 1970-01-01 to the civil date [y]-[m]-[d]. *)
Definition days_from_civil (y m d : Z) : Z :=
  let y' := if bool_decide (m ≤ 2) then y - 1 else y in
  let era := y' / 400 in
  let yoe := y' - era * 400 in
  let mp := if bool_decide (m ≤ 2) then m + 9 else m - 3 in
  let doy := (153 * mp + 2) / 5 + d - 1 in
  let doe := yoe * 365 + yoe / 4 - yoe / 100 + doy in
  era * 146097 + doe - 719468.

Definition isoLocal (tz : Z) (s : jsstring) : Date :=
  match s with
  | [y1; y2; y3; y4; s1; m1; m2; s2; a1; a2; t; h1; h2; s3; n1; n2] =>
      if bool_decide (s1 = 45%N ∧ s2 = 45%N ∧ t = 84%N ∧ s3 = 58%N) then
        y ← four_digits y1 y2 y3 y4;
        m ← two_digits m1 m2;
        d ← two_digits a1 a2;
        h ← two_digits h1 h2;
        n ← two_digits n1 n2;
        if bool_decide (1 ≤ m ≤ 12 ∧ 1 ≤ d ≤ days_in_month y m
                        ∧ h ≤ 23 ∧ n ≤ 59)
        then Some (((days_from_civil y m d * 24 + h) * 60 + n - tz) * 60000)
        else None
      else None
  | _ => None
  end.

(** [new Date(string)]: how a string is read as a local date-time is the
    host's business (ECMA-262 fixes it only for the ISO format), so the
    scanner is stated over an arbitrary host. *)
Class DateHost := Date_parse : jsstring → Date.

Section Scanner.

Context `{host : DateHost}.

(** [new Date(`${todo.dueDate}T${todo.dueTime}`)] *)
Definition dueDateTime (todo : Todo) : Date :=
  Date_parse (template (dueDate todo) ++ js "T" ++ template (dueTime todo)).

(** The guard of the outer [if] in the [forEach] callback. *)
Definition pending (todo : Todo) : bool :=
  truthy_string (dueDate todo) && truthy_string (dueTime todo)
  && negb (completed todo) && negb (truthy_bool (notified todo)).

(** Both guards of the callback: does [todo] raise a notification at
    time [now]? *)
Definition fires (now : Z) (todo : Todo) : bool :=
  if pending todo then Date_ge (Some now) (dueDateTime todo) else false.

(** The body of the [forEach] callback, acting on the notifications
    raised so far and on the collection the queued updaters rebuild. *)
Definition check_one (now : Z) (acc : list Notification * list Todo)
    (todo : Todo) : list Notification * list Todo :=
  if pending todo then
    if Date_ge (Some now) (dueDateTime todo) then
      (acc.1 ++ [reminder todo], markNotified todo acc.2)
    else acc
  else acc.

(** [checkNotifications]: [todos] is the snapshot the closure iterates,
    [prevTodos] the state the updaters are applied to. *)
Definition checkNotifications (now : Z) (todos prevTodos : list Todo)
    : list Notification * list Todo :=
  foldl (check_one now) ([], prevTodos) todos.

(** One scan pass: closure snapshot and state coincide. *)
Definition scan (now : Z) (todos : list Todo)
    : list Notification * list Todo :=
  checkNotifications now todos todos.

(** The effect around it does nothing unless the component is mounted
    and permission has been granted. *)
Definition notificationEffect (isMounted : bool)
    (notificationPermission : NotificationPermission)
    (now : Z) (todos : list Todo) : list Notification * list Todo :=
  if negb isMounted || bool_decide (notificationPermission ≠ granted)
  then ([], todos)
  else scan now todos.

(** A run of scan passes at the given times: the notifications of each
    pass, and the final collection. *)
Fixpoint scans (nows : list Z) (todos : list Todo)
    : list (list Notification) * list Todo :=
  match nows with
  | [] => ([], todos)
  | now :: rest =>
      let r := scan now todos in
      let rs := scans rest r.2 in
      (r.1 :: rs.1, rs.2)
  end.

(** What a pass at time [now] makes of a task when identifiers are
    unique: marked if it fires, itself otherwise. *)
Definition settle (now : Z) (todo : Todo) : Todo :=
  if fires now todo then set_notified todo else todo.

(** Does [todo], as it stands, fire at one of the times of a run? *)
Fixpoint fires_in (nows : list Z) (todo : Todo) : bool :=
  match nows with
  | [] => false
  | now :: rest => fires now todo || fires_in rest todo
  end.

(** No task with identifier [i] is waiting for its alert. *)
Definition quiet (i : jsstring) (todos : list Todo) : Prop :=
  ∀ t, t ∈ todos → id t = i → pending t = false.

(** The notifications a pass raises at the tasks with identifier [i]: the
    callback run over those tasks alone. *)
Definition raised_for (i : jsstring) (now : Z) (todos : list Todo)
    : list Notification :=
  (checkNotifications now (filter (λ t, id t = i) todos) todos).1.

(** The same over a run of passes. *)
Fixpoint alerts_for (i : jsstring) (nows : list Z) (todos : list Todo)
    : list Notification :=
  match nows with
  | [] => []
  | now :: rest =>
      raised_for i now todos ++ alerts_for i rest (scan now todos).2
  end.

End Scanner.

(** ** JSON text: [JSON.stringify] and [JSON.parse] *)

(** The values JSON text denotes. [JNum z] is an integer literal. A number
    literal with a fraction or an exponent denotes the nearest double; the
    embedding keeps such a literal as it was read ([JReal]) and does not
    compute with it. An object keeps its members in source order. *)
Unset Elimination Schemes.
Inductive json :=
  | JNull
  | JBool (b : bool)
  | JNum (z : Z)
  | JReal (lit : jsstring)
  | JStr (s : jsstring)
  | JArr (items : list json)
  | JObj (members : list (jsstring * json)).
Set Elimination Schemes.

(** *** Serialisation *)

(** The two-character escapes of [QuoteJSONString]. *)
Definition escape_of (c : N) : option N :=
  if bool_decide (c = 8%N) then Some 98%N          (* \b *)
  else if bool_decide (c = 9%N) then Some 116%N    (* \t *)
  else if bool_decide (c = 10%N) then Some 110%N   (* \n *)
  else if bool_decide (c = 12%N) then Some 102%N   (* \f *)
  else if bool_decide (c = 13%N) then Some 114%N   (* \r *)
  else if bool_decide (c = 34%N) then Some 34%N    (* quotation mark *)
  else if bool_decide (c = 92%N) then Some 92%N    (* reverse solidus *)
  else None.

Definition hexdigit (n : N) : N :=
  if bool_decide (n < 10)%N then (48 + n)%N else (87 + n)%N.

(** [UnicodeEscape]: a backslash, [u] and four lowercase hex digits. *)
Definition uescape (c : N) : jsstring :=
  [92; 117; hexdigit (c / 4096 mod 16); hexdigit (c / 256 mod 16);
   hexdigit (c / 16 mod 16); hexdigit (c mod 16)]%N.

Definition is_lead (c : N) : bool := bool_decide (55296 ≤ c ≤ 56319)%N.
Definition is_trail (c : N) : bool := bool_decide (56320 ≤ c ≤ 57343)%N.

(** The characters between the quotes of [QuoteJSONString]: control
    characters and lone surrogates are escaped, a surrogate pair and every
    other code unit is copied. *)
Fixpoint quote_chars (s : jsstring) : jsstring :=
  match s with
  | [] => []
  | c :: r =>
      match escape_of c with
      | Some e => 92%N :: e :: quote_chars r
      | None =>
          if bool_decide (c < 32)%N then uescape c ++ quote_chars r
          else if is_lead c then
            match r with
            | d :: r' =>
                if is_trail d then c :: d :: quote_chars r'
                else uescape c ++ quote_chars r
            | [] => uescape c
            end
          else if is_trail c then uescape c ++ quote_chars r
          else c :: quote_chars r
      end
  end.

Definition quote (s : jsstring) : jsstring :=
  34%N :: quote_chars s ++ [34%N].

(** Decimal digits as code units. *)
Fixpoint uint_units (d : uint) : jsstring :=
  match d with
  | Nil => []
  | D0 d => 48%N :: uint_units d
  | D1 d => 49%N :: uint_units d
  | D2 d => 50%N :: uint_units d
  | D3 d => 51%N :: uint_units d
  | D4 d => 52%N :: uint_units d
  | D5 d => 53%N :: uint_units d
  | D6 d => 54%N :: uint_units d
  | D7 d => 55%N :: uint_units d
  | D8 d => 56%N :: uint_units d
  | D9 d => 57%N :: uint_units d
  end.

(** [Number::toString] on an integer below 10^21 in magnitude: its
    decimal digits, with a minus sign when negative. *)
Definition number_units (z : Z) : jsstring :=
  match Z.to_int z with
  | Pos d => uint_units d
  | Neg d => 45%N :: uint_units d
  end.

(** [SerializeJSONProperty] without indentation. *)
Fixpoint stringify (v : json) : jsstring :=
  match v with
  | JNull => js "null"
  | JBool true => js "true"
  | JBool false => js "false"
  | JNum z => number_units z
  | JReal lit => lit
  | JStr s => quote s
  | JArr items =>
      let fix elements (l : list json) : jsstring :=
        match l with
        | [] => []
        | [x] => stringify x
        | x :: r => stringify x ++ 44%N :: elements r
        end in
      91%N :: elements items ++ [93%N]
  | JObj members =>
      let fix properties (l : list (jsstring * json)) : jsstring :=
        match l with
        | [] => []
        | [(k, x)] => quote k ++ 58%N :: stringify x
        | (k, x) :: r => quote k ++ 58%N :: stringify x ++ 44%N :: properties r
        end in
      123%N :: properties members ++ [125%N]
  end.

(** *** Parsing *)

Definition is_ws (c : N) : bool :=
  bool_decide (c = 9%N ∨ c = 10%N ∨ c = 13%N ∨ c = 32%N).

Fixpoint skip_ws (s : jsstring) : jsstring :=
  match s with
  | c :: r => if is_ws c then skip_ws r else s
  | [] => []
  end.

Definition hexval (c : N) : option N :=
  if bool_decide (48 ≤ c ≤ 57)%N then Some (c - 48)%N
  else if bool_decide (97 ≤ c ≤ 102)%N then Some (c - 87)%N
  else if bool_decide (65 ≤ c ≤ 70)%N then Some (c - 55)%N
  else None.

(** The character a two-character escape stands for. *)
Definition unescape (e : N) : option N :=
  if bool_decide (e = 34%N) then Some 34%N
  else if bool_decide (e = 92%N) then Some 92%N
  else if bool_decide (e = 47%N) then Some 47%N
  else if bool_decide (e = 98%N) then Some 8%N
  else if bool_decide (e = 102%N) then Some 12%N
  else if bool_decide (e = 110%N) then Some 10%N
  else if bool_decide (e = 114%N) then Some 13%N
  else if bool_decide (e = 116%N) then Some 9%N
  else None.

(** The characters of a string literal after its opening quote, up to and
    including the closing quote; the unread text is returned with them. *)
Fixpoint parse_chars (s : jsstring) : option (jsstring * jsstring) :=
  match s with
  | [] => None
  | c :: r =>
      if bool_decide (c = 34%N) then Some ([], r)
      else if bool_decide (c = 92%N) then
        match r with
        | [] => None
        | e :: r1 =>
            if bool_decide (e = 117%N) then
              match r1 with
              | h1 :: h2 :: h3 :: h4 :: r2 =>
                  a ← hexval h1; b ← hexval h2; c ← hexval h3; d ← hexval h4;
                  p ← parse_chars r2;
                  Some ((((a * 16 + b) * 16 + c) * 16 + d)%N :: p.1, p.2)
              | _ => None
              end
            else
              u ← unescape e;
              p ← parse_chars r1;
              Some (u :: p.1, p.2)
        end
      else if bool_decide (c < 32)%N then None
      else p ← parse_chars r; Some (c :: p.1, p.2)
  end.

(** One more decimal digit in front of a [uint]. *)
Definition digit_cons (c : N) : option (uint → uint) :=
  if bool_decide (c = 48%N) then Some D0
  else if bool_decide (c = 49%N) then Some D1
  else if bool_decide (c = 50%N) then Some D2
  else if bool_decide (c = 51%N) then Some D3
  else if bool_decide (c = 52%N) then Some D4
  else if bool_decide (c = 53%N) then Some D5
  else if bool_decide (c = 54%N) then Some D6
  else if bool_decide (c = 55%N) then Some D7
  else if bool_decide (c = 56%N) then Some D8
  else if bool_decide (c = 57%N) then Some D9
  else None.

(** The longest run of digits at the head of the text. *)
Fixpoint read_digits (s : jsstring) : uint * jsstring :=
  match s with
  | [] => (Nil, [])
  | c :: r =>
      match digit_cons c with
      | Some k => let p := read_digits r in (k p.1, p.2)
      | None => (Nil, s)
      end
  end.

(** The integer part of a number: a lone [0], or digits that do not start
    with [0]. *)
Definition int_part_ok (d : uint) : bool :=
  match d with
  | Nil => false
  | D0 Nil => true
  | D0 _ => false
  | _ => true
  end.

(** An optional fraction [.digits]: the text it spans and the rest. *)
Definition read_fraction (s : jsstring) : option (jsstring * jsstring) :=
  match s with
  | c :: r =>
      if bool_decide (c = 46%N) then
        let p := read_digits r in
        match p.1 with
        | Nil => None
        | d => Some (c :: uint_units d, p.2)
        end
      else Some ([], s)
  | [] => Some ([], s)
  end.

(** An optional exponent [e], [E] with optional sign and digits. *)
Definition read_exponent (s : jsstring) : option (jsstring * jsstring) :=
  match s with
  | c :: r =>
      if bool_decide (c = 101%N ∨ c = 69%N) then
        let sign_rest :=
          match r with
          | g :: r' =>
              if bool_decide (g = 43%N ∨ g = 45%N) then ([g], r') else ([], r)
          | [] => ([], r)
          end in
        let p := read_digits sign_rest.2 in
        match p.1 with
        | Nil => None
        | d => Some (c :: sign_rest.1 ++ uint_units d, p.2)
        end
      else Some ([], s)
  | [] => Some ([], s)
  end.

(** A number literal. *)
Definition parse_number (s : jsstring) : option (json * jsstring) :=
  let sign_rest :=
    match s with
    | c :: r => if bool_decide (c = 45%N) then (true, r) else (false, s)
    | [] => (false, s)
    end in
  let p := read_digits sign_rest.2 in
  if int_part_ok p.1 then
    f ← read_fraction p.2;
    x ← read_exponent f.2;
    match f.1 ++ x.1 with
    | [] =>
        Some (JNum (Z.of_int (if sign_rest.1 then Neg p.1 else Pos p.1)), x.2)
    | tail =>
        Some (JReal ((if sign_rest.1 then [45%N] else []) ++ uint_units p.1
                     ++ tail), x.2)
    end
  else None.

(** [strip_prefix p s]: the text after [p] when [s] starts with [p]. *)
Fixpoint strip_prefix (p s : jsstring) : option jsstring :=
  match p, s with
  | [], _ => Some s
  | a :: p', b :: s' => if bool_decide (a = b) then strip_prefix p' s' else None
  | _ :: _, [] => None
  end.

Definition parse_literal (s : jsstring) : option (json * jsstring) :=
  match strip_prefix (js "true") s with
  | Some r => Some (JBool true, r)
  | None =>
      match strip_prefix (js "false") s with
      | Some r => Some (JBool false, r)
      | None =>
          match strip_prefix (js "null") s with
          | Some r => Some (JNull, r)
          | None => None
          end
      end
  end.

(** Recursive descent over values, array elements and object members.
    Each call spends one unit of [fuel]. *)
Fixpoint parse_value (fuel : nat) (s : jsstring) : option (json * jsstring) :=
  match fuel with
  | O => None
  | S n =>
      match skip_ws s with
      | [] => None
      | c :: r =>
          if bool_decide (c = 123%N) then
            match skip_ws r with
            | c' :: r' =>
                if bool_decide (c' = 125%N) then Some (JObj [], r')
                else p ← parse_members n r; Some (JObj p.1, p.2)
            | [] => None
            end
          else if bool_decide (c = 91%N) then
            match skip_ws r with
            | c' :: r' =>
                if bool_decide (c' = 93%N) then Some (JArr [], r')
                else p ← parse_elements n r; Some (JArr p.1, p.2)
            | [] => None
            end
          else if bool_decide (c = 34%N) then
            p ← parse_chars r; Some (JStr p.1, p.2)
          else if bool_decide (c = 45%N) || bool_decide (48 ≤ c ≤ 57)%N then
            parse_number (c :: r)
          else parse_literal (c :: r)
      end
  end
with parse_elements (fuel : nat) (s : jsstring)
    : option (list json * jsstring) :=
  match fuel with
  | O => None
  | S n =>
      v ← parse_value n s;
      match skip_ws v.2 with
      | c :: r =>
          if bool_decide (c = 44%N) then
            p ← parse_elements n r; Some (v.1 :: p.1, p.2)
          else if bool_decide (c = 93%N) then Some ([v.1], r)
          else None
      | [] => None
      end
  end
with parse_members (fuel : nat) (s : jsstring)
    : option (list (jsstring * json) * jsstring) :=
  match fuel with
  | O => None
  | S n =>
      match skip_ws s with
      | c :: r =>
          if bool_decide (c = 34%N) then
            k ← parse_chars r;
            match skip_ws k.2 with
            | c1 :: r1 =>
                if bool_decide (c1 = 58%N) then
                  v ← parse_value n r1;
                  match skip_ws v.2 with
                  | c2 :: r2 =>
                      if bool_decide (c2 = 44%N) then
                        p ← parse_members n r2;
                        Some ((k.1, v.1) :: p.1, p.2)
                      else if bool_decide (c2 = 125%N) then
                        Some ([(k.1, v.1)], r2)
                      else None
                  | [] => None
                  end
                else None
            | [] => None
            end
          else None
      | [] => None
      end
  end.

(** [JSON.parse text]: one value, surrounded by optional white space and
    nothing else; [None] is the [SyntaxError]. No derivation is deeper
    than twice the length of the text, which bounds the fuel. *)
Definition JSON_parse (s : jsstring) : option json :=
  p ← parse_value (2 * length s + 2) s;
  match skip_ws p.2 with
  | [] => Some p.1
  | _ :: _ => None
  end.

(** The text after a number: the end, or a character no number contains. *)
Definition ends_number (rest : jsstring) : Prop :=
  match rest with
  | [] => True
  | c :: _ => c = 44%N ∨ c = 93%N ∨ c = 125%N
  end.

(** The elements of an array and the members of an object as
    [stringify] writes them between the brackets. *)
Definition stringify_elements : list json → jsstring :=
  fix elements (l : list json) : jsstring :=
    match l with
    | [] => []
    | [x] => stringify x
    | x :: r => stringify x ++ 44%N :: elements r
    end.

Definition stringify_properties : list (jsstring * json) → jsstring :=
  fix properties (l : list (jsstring * json)) : jsstring :=
    match l with
    | [] => []
    | [(k, x)] => quote k ++ 58%N :: stringify x
    | (k, x) :: r => quote k ++ 58%N :: stringify x ++ 44%N :: properties r
    end.

(** [Number.MAX_SAFE_INTEGER]: up to it an integer is a double, prints as
    its decimal digits and reads back as itself. *)
Definition MAX_SAFE_INTEGER : Z := 2 ^ 53 - 1.

Definition safe_integer (z : Z) : Prop :=
  - MAX_SAFE_INTEGER ≤ z ≤ MAX_SAFE_INTEGER.

(** Values whose text the embedding of [JSON.stringify] is exact for:
    every number inside is a safe integer. *)
Fixpoint storable (v : json) : Prop :=
  match v with
  | JNum z => safe_integer z
  | JReal _ => False
  | JArr items =>
      (fix all (l : list json) : Prop :=
         match l with
         | [] => True
         | x :: r => storable x ∧ all r
         end) items
  | JObj members =>
      (fix all (l : list (jsstring * json)) : Prop :=
         match l with
         | [] => True
         | (_, x) :: r => storable x ∧ all r
         end) members
  | _ => True
  end.

(** The number of calls the descent makes on the text of a value. *)
Fixpoint size (v : json) : nat :=
  match v with
  | JArr items =>
      S ((fix sum (l : list json) : nat :=
            match l with
            | [] => O
            | x :: r => (S (size x) + sum r)%nat
            end) items)
  | JObj members =>
      S ((fix sum (l : list (jsstring * json)) : nat :=
            match l with
            | [] => O
            | (_, x) :: r => (S (size x) + sum r)%nat
            end) members)
  | _ => 1%nat
  end.

Definition size_elements : list json → nat :=
  fix sum (l : list json) : nat :=
    match l with
    | [] => O
    | x :: r => (S (size x) + sum r)%nat
    end.

Definition size_members : list (jsstring * json) → nat :=
  fix sum (l : list (jsstring * json)) : nat :=
    match l with
    | [] => O
    | (_, x) :: r => (S (size x) + sum r)%nat
    end.

(** The descent reads back a value it is given enough fuel for. *)
Definition reads_back (v : json) : Prop :=
  ∀ fuel rest, (size v ≤ fuel)%nat → ends_number rest →
    parse_value fuel (stringify v ++ rest) = Some (v, rest).

(** *** [Todo] objects as JSON values *)

(** A property whose value is [undefined] is left out of the text. *)
Definition optional_member {A} (k : jsstring) (f : A → json) (v : option A)
    : list (jsstring * json) :=
  match v with
  | Some x => [(k, f x)]
  | None => []
  end.

(** The members [JSON.stringify] writes for a [Todo], in the order the
    object literal of [addTodo] creates them. *)
Definition todoToJSON (t : Todo) : json :=
  JObj ([(js "id", JStr (id t)); (js "text", JStr (text t));
         (js "completed", JBool (completed t));
         (js "createdAt", JNum (createdAt t))]
        ++ optional_member (js "dueDate") JStr (dueDate t)
        ++ optional_member (js "dueTime") JStr (dueTime t)
        ++ optional_member (js "notified") JBool (notified t)).

Definition todosToJSON (todos : list Todo) : json :=
  JArr (todoToJSON <$> todos).

(** Reading property [k] of a parsed object: when a key occurs more than
    once in the text, the last occurrence is the property's value. *)
Fixpoint get_prop (k : jsstring) (members : list (jsstring * json))
    : option json :=
  match members with
  | [] => None
  | (k', v) :: r =>
      match get_prop k r with
      | Some v' => Some v'
      | None => if decide (k' = k) then Some v else None
      end
  end.

Definition as_string (v : option json) : option jsstring :=
  match v with Some (JStr s) => Some s | _ => None end.

Definition as_boolean (v : option json) : option bool :=
  match v with Some (JBool b) => Some b | _ => None end.

(** A timestamp: an integer literal in the safe range. A number written
    with a fraction or an exponent is not read here, whatever it
    denotes. *)
Definition as_number (v : option json) : option Z :=
  match v with
  | Some (JNum z) => if decide (safe_integer z) then Some z else None
  | _ => None
  end.

(** An optional property: absent, or of the declared type. *)
Definition as_optional {A} (as_A : option json → option A) (v : option json)
    : option (option A) :=
  match v with
  | None => Some None
  | Some _ => x ← as_A v; Some (Some x)
  end.

(** A parsed value seen through the interface [Todo] of [src/types.ts]:
    [None] when the value does not have that type. [App] does not check
    this; it reads the properties as declared. *)
Definition todoOfJSON (v : json) : option Todo :=
  match v with
  | JObj members =>
      i ← as_string (get_prop (js "id") members);
      x ← as_string (get_prop (js "text") members);
      c ← as_boolean (get_prop (js "completed") members);
      a ← as_number (get_prop (js "createdAt") members);
      dd ← as_optional as_string (get_prop (js "dueDate") members);
      dt ← as_optional as_string (get_prop (js "dueTime") members);
      n ← as_optional as_boolean (get_prop (js "notified") members);
      Some {| id := i; text := x; completed := c; createdAt := a;
              dueDate := dd; dueTime := dt; notified := n |}
  | _ => None
  end.

Definition todosOfJSON (v : json) : option (list Todo) :=
  match v with
  | JArr items => mapM todoOfJSON items
  | _ => None
  end.

(** A collection whose timestamps are safe integers, the numbers [App]
    gets from [Date.now()]. *)
Definition valid (todos : list Todo) : Prop :=
  Forall (λ t, safe_integer (createdAt t)) todos.

(** ** Persistent store: the load and save effects of [App] *)

(** [localStorage]: stored text by key. *)
Abbreviation Storage := (gmap jsstring jsstring).

Definition getItem (k : jsstring) (localStorage : Storage) : option jsstring :=
  localStorage !! k.

Definition setItem (k v : jsstring) (localStorage : Storage) : Storage :=
  <[k := v]> localStorage.

Definition removeItem (k : jsstring) (localStorage : Storage) : Storage :=
  delete k localStorage.

Definition LOCAL_STORAGE_KEY : jsstring := js "react-todo-list-app-todos-v2".

(** How a statement completes: normally with a value, or by throwing. *)
Inductive Error := SyntaxError.

Inductive completion (A : Type) :=
  | Normal (a : A)
  | Throw (e : Error).
Arguments Normal {A} a.
Arguments Throw {A} e.

(** [try { body } catch (error) { handler }] *)
Definition try_catch {A} (body : completion A) (handler : Error → completion A)
    : completion A :=
  match body with
  | Normal a => Normal a
  | Throw e => handler e
  end.

(** [JSON.parse] as the call that may throw. *)
Definition JSON_parse_call (s : jsstring) : completion json :=
  match JSON_parse s with
  | Some v => Normal v
  | None => Throw SyntaxError
  end.

(** The save effect: [if (isMounted) localStorage.setItem(KEY,
    JSON.stringify(todos))]. *)
Definition saveEffect (isMounted : bool) (todos : list Todo)
    (localStorage : Storage) : Storage :=
  if isMounted
  then setItem LOCAL_STORAGE_KEY (stringify (todosToJSON todos)) localStorage
  else localStorage.

(** The load effect. Its result is the argument [setTodos] was called
    with, if it was called, and the storage it leaves. *)
Definition loadEffect (localStorage : Storage)
    : completion (option json * Storage) :=
  try_catch
    (let storedTodos := getItem LOCAL_STORAGE_KEY localStorage in
     match storedTodos with
     | Some stored =>
         if truthy_string storedTodos then
           match JSON_parse_call stored with
           | Normal v => Normal (Some v, localStorage)
           | Throw e => Throw e
           end
         else Normal (None, localStorage)
     | None => Normal (None, localStorage)
     end)
    (λ error, Normal (None, removeItem LOCAL_STORAGE_KEY localStorage)).

(** The collection the component holds once the load effect has run: the
    initial [[]] of [useState] unless [setTodos] replaced it, seen as a
    [Todo[]] ([None] when the stored value is not one). *)
Definition held (set : option json) : option (list Todo) :=
  match set with
  | None => Some []
  | Some v => todosOfJSON v
  end.

Definition load (localStorage : Storage)
    : completion (option (list Todo) * Storage) :=
  match loadEffect localStorage with
  | Normal r => Normal (held r.1, r.2)
  | Throw e => Throw e
  end.

(** [save] once the component is mounted. *)
Definition save (todos : list Todo) (localStorage : Storage) : Storage :=
  saveEffect true todos localStorage.

(** ** The rest of [App]: payloads, actions, permission, mounting, view *)

(** [{}]: a payload that mentions nothing. *)
Definition no_updates : TodoUpdatePayload :=
  {| u_text := None; u_completed := None; u_dueDate := None;
     u_dueTime := None; u_notified := None |}.

(** One property of [{ ...first, ...second }] on two payloads: present if
    either mentions it, the second winning. *)
Definition spread_present {A} (first second : option A) : option A :=
  match second with
  | Some v => Some v
  | None => first
  end.

(** [{ ...first, ...second }] *)
Definition overlay (first second : TodoUpdatePayload) : TodoUpdatePayload :=
  {| u_text := spread_present (u_text first) (u_text second);
     u_completed := spread_present (u_completed first) (u_completed second);
     u_dueDate := spread_present (u_dueDate first) (u_dueDate second);
     u_dueTime := spread_present (u_dueTime first) (u_dueTime second);
     u_notified := spread_present (u_notified first) (u_notified second) |}.

(** What can happen to the collection: the five callbacks [App] hands to
    its children ([onAdd], [onToggle], [onDelete], [onEdit],
    [onClearCompleted]) and a pass of the scanner. *)
Inductive action :=
  | Add (randomUUID : jsstring) (Date_now : Z) (text : jsstring)
        (dueDate dueTime : option jsstring)
  | Toggle (i : jsstring)
  | Delete (i : jsstring)
  | Edit (i : jsstring) (updates : TodoUpdatePayload)
  | ClearCompleted
  | Scan (now : Z).

Section Actions.

Context `{host : DateHost}.

Definition step (todos : list Todo) (a : action) : list Todo :=
  match a with
  | Add u n x dd dt => addTodo u n x dd dt todos
  | Toggle i => toggleTodo i todos
  | Delete i => deleteTodo i todos
  | Edit i updates => editTodo i updates todos
  | ClearCompleted => clearCompleted todos
  | Scan now => (scan now todos).2
  end.

Definition run (actions : list action) (todos : list Todo) : list Todo :=
  foldl step todos actions.

(** Every [Add] of the run draws a UUID that no task holds at that
    moment. *)
Fixpoint draws_fresh (actions : list action) (todos : list Todo) : Prop :=
  match actions with
  | [] => True
  | a :: rest =>
      match a with
      | Add u _ _ _ _ => u ∉ id <$> todos
      | _ => True
      end ∧ draws_fresh rest (step todos a)
  end.

End Actions.

(** What identifies a task for good. *)
Definition identity (t : Todo) : jsstring * Z := (id t, createdAt t).

(** The identities the [Add]s of a run create, newest first. *)
Definition added_by (a : action) : list (jsstring * Z) :=
  match a with
  | Add u n _ _ _ => [(u, n)]
  | _ => []
  end.

Fixpoint added (actions : list action) : list (jsstring * Z) :=
  match actions with
  | [] => []
  | a :: rest => added rest ++ added_by a
  end.

(** Every [Add] of the run reads a safe integer from [Date.now()]. *)
Definition timestamps_safe (actions : list action) : Prop :=
  Forall (λ a, match a with
               | Add _ n _ _ _ => safe_integer n
               | _ => True
               end) actions.

(** *** Notification authorization: the first effect of [App] *)

(** What the host offers: whether [window] has [Notification], the value
    of [Notification.permission], and what the promise of
    [Notification.requestPermission()] resolves to ([None]: it has not
    resolved). *)
Record Platform := mkPlatform {
  Notification_in_window : bool;
  Notification_permission : NotificationPermission;
  requestPermission_resolves : option NotificationPermission
}.

(** The effect, given the state [notificationPermission] it starts from:
    the state once its continuation, if any, has run, and whether it
    called [requestPermission]. *)
Definition permissionEffect (isMounted : bool) (platform : Platform)
    (notificationPermission : NotificationPermission)
    : NotificationPermission * bool :=
  if negb isMounted then (notificationPermission, false)
  else if Notification_in_window platform then
    if bool_decide (Notification_permission platform ≠ granted)
       && bool_decide (Notification_permission platform ≠ denied)
    then
      match requestPermission_resolves platform with
      | Some permission => (permission, true)
      | None => (notificationPermission, true)
      end
    else (Notification_permission platform, false)
  else (notificationPermission, false).

(** *** Mounting *)

(** The state hooks of [App]. *)
Record AppState := mkAppState {
  st_todos : list Todo;
  st_filter : FilterType;
  st_isMounted : bool;
  st_notificationPermission : NotificationPermission
}.

(** The initial values of the four [useState] calls. *)
Definition initialState : AppState :=
  {| st_todos := []; st_filter := All; st_isMounted := false;
     st_notificationPermission := default |}.

(** The storage effects of mounting. In the first commit the effects see
    [isMounted = false] and the initial collection: the load effect runs,
    the save effect does nothing. The load effect sets [isMounted] and
    perhaps the collection, so a second commit follows, in which the save
    effect writes the collection held. [None]: the stored value is not a
    [Todo[]]; what the component then does (it fails when it renders a
    value that is not an array) is outside this definition, which is
    meant for storage the component wrote itself or cannot parse. *)
Definition mount (localStorage : Storage)
    : completion (option (AppState * Storage)) :=
  match loadEffect localStorage with
  | Normal loaded =>
      let afterFirst :=
        saveEffect (st_isMounted initialState) (st_todos initialState)
          loaded.2 in
      Normal (todos ← held loaded.1;
              Some ({| st_todos := todos; st_filter := st_filter initialState;
                       st_isMounted := true;
                       st_notificationPermission :=
                         st_notificationPermission initialState |},
                    saveEffect true todos afterFirst))
  | Throw e => Throw e
  end.

(** *** What [App] renders *)

Record FooterProps := mkFooterProps {
  f_activeCount : nat;
  f_completedCount : nat;
  f_currentFilter : FilterType;
  f_totalTodos : nat
}.

(** The area under the form: the list component with its [todos]
    property, or the message that the list is empty. *)
Inductive ListArea :=
  | TodoList (todos : list Todo)
  | EmptyMessage.

Record View := mkView {
  pendingBanner : bool;   (* Notifications are pending. ... *)
  deniedBanner : bool;    (* Notifications are disabled. ... *)
  listArea : ListArea;
  footer : FooterProps
}.

(** The return value of [App]: [None] is [null]. *)
Definition render (st : AppState) : option View :=
  if negb (st_isMounted st) then None
  else
    Some {| pendingBanner :=
              bool_decide (st_notificationPermission st = default);
            deniedBanner :=
              bool_decide (st_notificationPermission st = denied);
            listArea :=
              if bool_decide (0 < length (st_todos st))%nat
              then TodoList (filteredTodos (st_filter st) (st_todos st))
              else EmptyMessage;
            footer :=
              {| f_activeCount := activeCount (st_todos st);
                 f_completedCount := completedCount (st_todos st);
                 f_currentFilter := st_filter st;
                 f_totalTodos := length (st_todos st) |} |}.

(** ** Example data *)

Definition milk : Todo :=
  {| id := js "a1"; text := js "Buy milk"; completed := false;
     createdAt := 1704000000000; dueDate := Some (js "2024-01-01");
     dueTime := Some (js "09:00"); notified := Some false |}.

Definition laundry : Todo :=
  {| id := js "b2"; text := js "Laundry"; completed := false;
     createdAt := 1704000000001; dueDate := None;
     dueTime := Some (js "08:00"); notified := None |}.

Definition report : Todo :=
  {| id := js "c3"; text := js "Send report"; completed := true;
     createdAt := 1704000000002; dueDate := Some (js "2023-12-31");
     dueTime := Some (js "17:30"); notified := Some false |}.

Definition nap : Todo :=
  {| id := js "d4"; text := js "Nap"; completed := false;
     createdAt := 1704000000003; dueDate := Some (js "tomorrow");
     dueTime := Some (js "9am"); notified := Some false |}.

Definition example_todos : list Todo := [milk; laundry; report; nap].

(** A word between quotation marks. *)
Definition quoted (s : string) : jsstring := 34%N :: js s ++ [34%N].

(** One stored task, its properties in another order than [addTodo]
    writes them, with a property [Todo] does not declare:
    [[{"text":"x","id":"a","extra":null,"createdAt":5,"completed":true}]] *)
Definition reordered_text : jsstring :=
  js "[{" ++ quoted "text" ++ js ":" ++ quoted "x" ++ js ","
  ++ quoted "id" ++ js ":" ++ quoted "a" ++ js ","
  ++ quoted "extra" ++ js ":null,"
  ++ quoted "createdAt" ++ js ":5,"
  ++ quoted "completed" ++ js ":true}]".

(** Two payloads: a new due date, and a cleared notified flag. *)
Definition reschedule : TodoUpdatePayload :=
  {| u_text := None; u_completed := None;
     u_dueDate := Some (Some (js "2024-01-02")); u_dueTime := None;
     u_notified := None |}.

Definition rearm : TodoUpdatePayload :=
  {| u_text := None; u_completed := None; u_dueDate := None;
     u_dueTime := None; u_notified := Some (Some false) |}.

(** 2024-01-01T09:00 in a zone at UTC. *)
Definition nine_o_clock : Z := 1704099600000.

(** * Properties *)

(** ** The reference date parser on the example of the specification *)

Example isoLocal_new_year_utc :
  isoLocal 0 (js "2024-01-01T09:00") = Some 1704099600000.
Proof. vm_compute. reflexivity. Qed.

Example isoLocal_zone_offset :
  isoLocal 60 (js "1970-01-01T01:00") = Some 0.
Proof. vm_compute. reflexivity. Qed.

Example isoLocal_rejects_bad_day :
  isoLocal 0 (js "2023-02-29T01:00") = None.
Proof. vm_compute. reflexivity. Qed.

Example isoLocal_rejects_missing_date : isoLocal 0 (js "T09:00") = None.
Proof. vm_compute. reflexivity. Qed.

(** The reference parser reads no instant from a text whose date part or
    time part is empty. *)
Lemma isoLocal_needs_date_and_time (tz : Z) (s : jsstring) :
  isoLocal tz (js "T" ++ s) = None ∧ isoLocal tz (s ++ js "T") = None.
Proof.
  split.
  - change (js "T" ++ s) with (84%N :: s). unfold isoLocal.
    do 15 (destruct s as [|? s]; [reflexivity|]).
    destruct s; [|reflexivity]. by case_bool_decide.
  - change (js "T") with [84%N]. unfold isoLocal.
    do 15 (destruct s as [|? s]; [reflexivity|]).
    destruct s as [|? s]; [|by destruct s].
    cbn [app]. case_bool_decide; [|done].
    assert (∀ a, two_digits a 84 = None) as E.
    { intros a. unfold two_digits. by destruct (digit a). }
    rewrite E.
    repeat match goal with
      | |- context [four_digits ?a ?b ?c ?d] => destruct (four_digits a b c d)
      | |- context [two_digits ?a ?b] => destruct (two_digits a b)
      end; reflexivity.
Qed.

(** ** Scanner *)

Lemma set_notified_id t : id (set_notified t) = id t.
Proof. reflexivity. Qed.

Lemma set_notified_idemp t : set_notified (set_notified t) = set_notified t.
Proof. reflexivity. Qed.

Lemma markNotified_ids q ps : id <$> markNotified q ps = id <$> ps.
Proof.
  unfold markNotified. rewrite <- list_fmap_compose.
  apply list_fmap_ext. intros _ t _. simpl. by destruct (decide _).
Qed.

Lemma foldl_markNotified fired : ∀ ps,
  foldl (λ ps q, markNotified q ps) ps fired = mark_all fired ps.
Proof.
  induction fired as [|q fired IH]; intros ps; simpl.
  - unfold mark_all. rewrite <- (list_fmap_id ps) at 1.
    apply list_fmap_ext. by intros _ t _.
  - rewrite IH. unfold mark_all, markNotified. rewrite <- list_fmap_compose.
    apply list_fmap_ext. intros _ t _. simpl.
    repeat case_decide; simplify_eq/=; try done; exfalso;
      repeat match goal with
        | H : _ ∈ _ :: _ |- _ => apply elem_of_cons in H; destruct H
        | H : _ ∉ _ :: _ |- _ => apply not_elem_of_cons in H; destruct H
        end; congruence || contradiction.
Qed.

Lemma filter_none {A} (P : A → Prop) `{∀ x, Decision (P x)} (l : list A) :
  (∀ x, x ∈ l → ¬ P x) → filter P l = [].
Proof.
  induction l as [|a l IH]; intros Hl; [done|].
  rewrite filter_cons, decide_False by (apply Hl; left).
  apply IH. intros x Hx. apply Hl. by right.
Qed.

Lemma NoDup_fmap_eq {A B} (f : A → B) (l : list A) x y :
  NoDup (f <$> l) → x ∈ l → y ∈ l → f x = f y → x = y.
Proof.
  induction l as [|a l IH]; simpl; intros Hnd Hx Hy E.
  - by apply elem_of_nil in Hx.
  - apply NoDup_cons in Hnd as [Ha Hnd].
    apply elem_of_cons in Hx as [->|Hx]; apply elem_of_cons in Hy as [->|Hy];
      try done; try by apply IH.
    + exfalso. apply Ha. rewrite E. by apply list_elem_of_fmap_2.
    + exfalso. apply Ha. rewrite <- E. by apply list_elem_of_fmap_2.
Qed.

Section ScannerProperties.

Context `{host : DateHost}.

Lemma check_one_fires now acc todo :
  check_one now acc todo =
    if fires now todo then (acc.1 ++ [reminder todo], markNotified todo acc.2)
    else acc.
Proof.
  unfold check_one, fires.
  destruct (pending todo); [|done]. by destruct (Date_ge _ _).
Qed.

(** The fold of the callback: notifications accumulate in order, the
    updaters compose. *)
Lemma foldl_check_one now todos : ∀ ns ps,
  foldl (check_one now) (ns, ps) todos =
    (ns ++ (reminder <$> filter (λ t, fires now t) todos),
     mark_all (filter (λ t, fires now t) todos) ps).
Proof.
  induction todos as [|t todos IH]; intros ns ps.
  - simpl. rewrite app_nil_r. by rewrite <- foldl_markNotified.
  - simpl. rewrite check_one_fires. rewrite filter_cons.
    destruct (fires now t) eqn:F; simpl.
    + rewrite IH, <- !foldl_markNotified. simpl. by rewrite <- app_assoc.
    + by rewrite IH.
Qed.

Lemma checkNotifications_eq now todos prevTodos :
  checkNotifications now todos prevTodos =
    (reminder <$> filter (λ t, fires now t) todos,
     mark_all (filter (λ t, fires now t) todos) prevTodos).
Proof. unfold checkNotifications. by rewrite foldl_check_one. Qed.

(** With unique identifiers, marking by identifier marks exactly the
    tasks that fired. *)
Lemma mark_all_fired now todos :
  NoDup (id <$> todos) →
  mark_all (filter (λ t, fires now t) todos) todos =
    (λ t, if fires now t then set_notified t else t) <$> todos.
Proof.
  intros Hnd. unfold mark_all. apply list_fmap_ext. intros k t Ht.
  apply list_elem_of_lookup_2 in Ht. simpl.
  destruct (decide _) as [H|H].
  - apply list_elem_of_fmap in H as (q & E & Hq).
    apply list_elem_of_filter in Hq as [Fq Hq].
    assert (t = q) as -> by (eapply NoDup_fmap_eq; eauto).
    by destruct (fires now q).
  - destruct (fires now t) eqn:F; [|done].
    exfalso. apply H. apply list_elem_of_fmap_2.
    apply list_elem_of_filter. by rewrite F.
Qed.

Lemma fires_spec now t :
  fires now t = true ↔
    ∃ d tm due, dueDate t = Some d ∧ dueTime t = Some tm ∧ d ≠ [] ∧ tm ≠ []
      ∧ completed t = false ∧ notified t ≠ Some true
      ∧ Date_parse (d ++ js "T" ++ tm) = Some due ∧ due ≤ now.
Proof.
  unfold fires, pending, dueDateTime, Date_ge.
  destruct t as [i x c a dd dt n]; simpl. split.
  - destruct dd as [[|d0 d]|], dt as [[|t0 tm]|]; simpl; try done.
    destruct c; simpl; [done|].
    destruct n as [[]|]; simpl; try done;
      destruct (Date_parse _) as [due|] eqn:E; try done;
      intros H%bool_decide_eq_true;
      exists (d0 :: d), (t0 :: tm), due; repeat split; done.
  - intros (d & tm & due & -> & -> & Hd & Htm & -> & Hn & E & Hle).
    destruct d; [done|]. destruct tm; [done|]. simpl.
    assert (truthy_bool n = false) as -> by (by destruct n as [[]|]).
    simpl in *. rewrite E. by apply bool_decide_eq_true.
Qed.


Lemma scan_eq now todos :
  NoDup (id <$> todos) →
  scan now todos =
    (reminder <$> filter (λ t, fires now t) todos,
     (λ t, if fires now t then set_notified t else t) <$> todos).
Proof.
  intros Hnd. unfold scan. rewrite checkNotifications_eq.
  by rewrite mark_all_fired.
Qed.

Lemma fires_pending now t : fires now t = true → pending t = true.
Proof. unfold fires. by destruct (pending t). Qed.

Lemma pending_set_notified t : pending (set_notified t) = false.
Proof. unfold pending. simpl. by rewrite !andb_false_r. Qed.

Lemma scan_ids now todos : id <$> (scan now todos).2 = id <$> todos.
Proof.
  unfold scan. rewrite checkNotifications_eq. simpl. unfold mark_all.
  rewrite <- list_fmap_compose. apply list_fmap_ext. intros k t _. simpl.
  by case_decide.
Qed.

Lemma scans_app early later : ∀ todos,
  (scans (early ++ later) todos).2 = (scans later (scans early todos).2).2.
Proof. induction early as [|n early IH]; intros todos; simpl; [done|apply IH]. Qed.

Lemma raised_for_eq i now todos :
  raised_for i now todos =
    reminder <$> filter (λ t, fires now t) (filter (λ t, id t = i) todos).
Proof. unfold raised_for. by rewrite checkNotifications_eq. Qed.

Lemma quiet_scan i now todos : quiet i todos → quiet i (scan now todos).2.
Proof.
  intros Hq t'. unfold scan. rewrite checkNotifications_eq. simpl.
  unfold mark_all. intros (t & -> & Ht)%list_elem_of_fmap.
  case_decide; [intros _; apply pending_set_notified | by apply Hq].
Qed.

Lemma quiet_raised i now todos : quiet i todos → raised_for i now todos = [].
Proof.
  intros Hq. rewrite raised_for_eq.
  rewrite filter_none; [done|].
  intros t [E Ht]%list_elem_of_filter F.
  apply Is_true_true_1, fires_pending in F. by rewrite (Hq t) in F.
Qed.

Lemma quiet_alerts i nows : ∀ todos, quiet i todos → alerts_for i nows todos = [].
Proof.
  induction nows as [|now rest IH]; intros todos Hq; simpl; [done|].
  rewrite quiet_raised by done. by rewrite IH by by apply quiet_scan.
Qed.

Lemma filter_id_unique (todos : list Todo) t :
  NoDup (id <$> todos) → t ∈ todos → filter (λ x, id x = id t) todos = [t].
Proof.
  induction todos as [|a l IH]; simpl; intros Hnd Ht.
  - by apply elem_of_nil in Ht.
  - apply NoDup_cons in Hnd as [Ha Hnd]. rewrite filter_cons.
    apply elem_of_cons in Ht as [->|Ht].
    + rewrite decide_True by done. f_equal.
      apply filter_none. intros x Hx E.
      apply Ha. rewrite <- E. by apply list_elem_of_fmap_2.
    + rewrite decide_False; [by apply IH|].
      intros E. apply Ha. rewrite E. by apply list_elem_of_fmap_2.
Qed.

(** After a pass in which the task [t] fired or was not pending, nothing
    with its identifier is waiting any more. *)
Lemma quiet_after now todos t :
  NoDup (id <$> todos) → t ∈ todos →
  fires now t = true ∨ pending t = false →
  quiet (id t) (scan now todos).2.
Proof.
  intros Hnd Ht Hc t'. rewrite scan_eq by done. simpl.
  intros (x & -> & Hx)%list_elem_of_fmap E.
  assert (x = t) as ->.
  { eapply NoDup_fmap_eq; eauto. by destruct (fires now x). }
  destruct (fires now t) eqn:F; [apply pending_set_notified|].
  by destruct Hc.
Qed.

(** C1. One scan pass at time [now], over a collection with unique
    identifiers: the notifications raised are the reminders (body = the
    task's text) of exactly the tasks that fire, in collection order, and
    the new collection marks exactly those tasks as notified, every other
    task being left as it was. A task fires if and only if its due date
    and due time are both present (non-empty strings), it is not
    completed, it is not yet notified, and the instant read from
    date, [T], time is valid and not after [now]. A task missing its due
    date or its due time never fires. *)
Theorem scan_alerts_exactly_the_due_tasks (now : Z) (todos : list Todo) :
  NoDup (id <$> todos) →
  (scan now todos).1 = reminder <$> filter (λ t, fires now t) todos
  ∧ (scan now todos).2 =
      (λ t, if fires now t then set_notified t else t) <$> todos
  ∧ (∀ t, body (reminder t) = text t ∧ notified (set_notified t) = Some true)
  ∧ (∀ t, fires now t = true ↔
       ∃ d tm due, dueDate t = Some d ∧ dueTime t = Some tm
         ∧ d ≠ [] ∧ tm ≠ []
         ∧ completed t = false ∧ notified t ≠ Some true
         ∧ Date_parse (d ++ js "T" ++ tm) = Some due ∧ due ≤ now)
  ∧ (∀ t, dueDate t = None ∨ dueTime t = None → fires now t = false)
  ∧ ((∀ s, Date_parse (js "T" ++ s) = None ∧ Date_parse (s ++ js "T") = None) →
     ∀ t, fires now t = true ↔
       ∃ d tm due, dueDate t = Some d ∧ dueTime t = Some tm
         ∧ completed t = false ∧ notified t ≠ Some true
         ∧ Date_parse (d ++ js "T" ++ tm) = Some due ∧ due ≤ now).
Proof.
  intros Hnd. rewrite scan_eq by done.
  split; [done|]. split; [done|]. split; [done|]. split; [|split].
  - intros t. apply fires_spec.
  - intros t [E|E]; unfold fires, pending; rewrite E; simpl;
      by rewrite ?andb_false_r.
  - intros Hhost t. rewrite fires_spec. split.
    + intros (d & tm & due & ? & ? & _ & _ & ? & ? & ? & ?).
      by exists d, tm, due.
    + intros (d & tm & due & Hd & Htm & Hc & Hn & Hp & Hle).
      exists d, tm, due. repeat split; try done.
      * intros ->. destruct (Hhost tm) as [E _].
        rewrite app_nil_l in Hp. congruence.
      * intros ->. destruct (Hhost d) as [_ E].
        rewrite app_nil_r in Hp. congruence.
Qed.

Lemma settle_ids now (l : list Todo) : id <$> (settle now <$> l) = id <$> l.
Proof.
  rewrite <- list_fmap_compose. apply list_fmap_ext. intros k t _. simpl.
  unfold settle. by destruct (fires now t).
Qed.

Lemma settle_bystander now t : fires now t = false → settle now t = t.
Proof. unfold settle. by intros ->. Qed.

Lemma settle_fired now t : fires now t = true → settle now t = set_notified t.
Proof. unfold settle. by intros ->. Qed.

Lemma fires_set_notified now t : fires now (set_notified t) = false.
Proof. unfold fires. by rewrite pending_set_notified. Qed.

Lemma fires_in_set_notified nows t : fires_in nows (set_notified t) = false.
Proof.
  induction nows as [|n rest IH]; [done|]. simpl.
  by rewrite fires_set_notified, IH.
Qed.

Lemma NoDup_ids_without (l1 l2 : list Todo) x :
  NoDup (id <$> l1 ++ x :: l2) → NoDup (id <$> l1 ++ l2).
Proof.
  intros Hnd. eapply sublist_NoDup; [exact Hnd|].
  apply fmap_sublist, sublist_app; [done|]. by apply sublist_cons.
Qed.

(** A pass on a collection, seen around one of its tasks: what it raises
    and leaves there, and what it would raise and leave without the
    task. *)
Lemma scan_around now (l1 l2 : list Todo) x :
  NoDup (id <$> l1 ++ x :: l2) →
  scan now (l1 ++ x :: l2)
  = ((reminder <$> filter (λ t, fires now t) l1)
       ++ (if fires now x then [reminder x] else [])
       ++ (reminder <$> filter (λ t, fires now t) l2),
     (settle now <$> l1) ++ settle now x :: (settle now <$> l2))
  ∧ scan now (l1 ++ l2)
    = ((reminder <$> filter (λ t, fires now t) l1)
         ++ (reminder <$> filter (λ t, fires now t) l2),
       (settle now <$> l1) ++ (settle now <$> l2)).
Proof.
  intros Hnd. rewrite (scan_eq now (l1 ++ x :: l2)) by done.
  rewrite (scan_eq now (l1 ++ l2)) by (by eapply NoDup_ids_without).
  rewrite !filter_app, filter_cons, !fmap_app, fmap_cons. split; [|done].
  f_equal. by destruct (fires now x).
Qed.

(** A task that fires at none of the times of a run is a bystander: the
    passes raise what they would raise without it, and leave it where it
    is. *)
Lemma passes_around_bystander (nows : list Z) : ∀ (l1 l2 : list Todo) x,
  NoDup (id <$> l1 ++ x :: l2) →
  Forall (λ n, fires n x = false) nows →
  (scans nows (l1 ++ x :: l2)).1 = (scans nows (l1 ++ l2)).1
  ∧ ∃ m1 m2,
      (scans nows (l1 ++ x :: l2)).2 = m1 ++ x :: m2
      ∧ (scans nows (l1 ++ l2)).2 = m1 ++ m2
      ∧ NoDup (id <$> m1 ++ x :: m2).
Proof.
  induction nows as [|n rest IH]; intros l1 l2 x Hnd Hq.
  - simpl. split; [done|]. by exists l1, l2.
  - apply Forall_cons in Hq as [Hn Hq].
    destruct (scan_around n l1 l2 x Hnd) as [E1 E2].
    rewrite Hn, (settle_bystander n x Hn) in E1.
    simpl. rewrite E1, E2. cbn [fst snd].
    destruct (IH (settle n <$> l1) (settle n <$> l2) x) as (IH1 & IH2);
      [|done|].
    { rewrite fmap_app, fmap_cons, !settle_ids.
      by rewrite fmap_app, fmap_cons in Hnd. }
    split; [|exact IH2]. simpl. by rewrite IH1.
Qed.

(** The notifications of a pass, and those of the later passes on what
    it leaves, are together the reminders of the tasks that fire at some
    time of the run. *)
Lemma reminders_of_run now rest (todos : list Todo) :
  (reminder <$> filter (λ t, fires now t) todos)
    ++ (reminder <$> filter (λ t, fires_in rest t) (settle now <$> todos))
  ≡ₚ reminder <$> filter (λ t, fires_in (now :: rest) t) todos.
Proof.
  induction todos as [|a l IH]; [done|].
  rewrite fmap_cons, !filter_cons.
  change (fires_in (now :: rest) a) with (fires now a || fires_in rest a).
  destruct (fires now a) eqn:F.
  - rewrite (settle_fired now a F), fires_in_set_notified. simpl.
    by apply Permutation_skip.
  - rewrite (settle_bystander now a F). simpl.
    destruct (fires_in rest a); simpl; [|done].
    rewrite <- Permutation_middle. by apply Permutation_skip.
Qed.

(** C2. Over any run of scan passes on a collection with unique
    identifiers, the notifications the passes raise are, taken together,
    one reminder for each task that fires at some time of the run and
    none for any other task: no task is alerted twice. For a pending task
    [t] whose due instant is [due]: the passes before [due] raise exactly
    what they would raise without [t]; the first pass at or after [due]
    raises what it would raise without [t] and, at the place of [t], one
    reminder of [t], and leaves [t] marked notified; and the passes after
    it raise exactly what they would raise without [t]. *)
Theorem alerted_at_most_once (nows : list Z) (todos : list Todo) :
  NoDup (id <$> todos) →
  concat (scans nows todos).1
    ≡ₚ reminder <$> filter (λ t, fires_in nows t) todos
  ∧ (∀ l1 t l2 early now later due,
       todos = l1 ++ t :: l2 → nows = early ++ now :: later →
       pending t = true → dueDateTime t = Some due →
       Forall (λ n, n < due) early → due ≤ now →
       (scans early (l1 ++ t :: l2)).1 = (scans early (l1 ++ l2)).1
       ∧ ∃ m1 m2 before after,
           (scans early (l1 ++ t :: l2)).2 = m1 ++ t :: m2
           ∧ (scan now (m1 ++ m2)).1 = before ++ after
           ∧ (scan now (m1 ++ t :: m2)).1 = before ++ reminder t :: after
           ∧ (scan now (m1 ++ t :: m2)).2 !! length m1
             = Some (set_notified t)
           ∧ (scans later (scan now (m1 ++ t :: m2)).2).1
             = (scans later (scan now (m1 ++ m2)).2).1).
Proof.
  intros Hnd. split.
  - revert todos Hnd.
    induction nows as [|now rest IH]; intros todos Hnd.
    + simpl. rewrite filter_none; [done|]. by intros x _ [].
    + cbn [scans fst snd concat]. rewrite IH by (by rewrite scan_ids).
      rewrite scan_eq by done. cbn [fst snd].
      apply reminders_of_run.
  - intros l1 t l2 early now later due -> -> Hp Hdue Hearly Hnow.
    assert (∀ n, fires n t = bool_decide (due ≤ n)) as Hf.
    { intros n. unfold fires. by rewrite Hp, Hdue. }
    destruct (passes_around_bystander early l1 l2 t Hnd)
      as (Hout & m1 & m2 & Hm & _ & Hnd').
    { eapply Forall_impl; [exact Hearly|]. intros n Hn. simpl in Hn.
      rewrite Hf. apply bool_decide_eq_false. lia. }
    split; [exact Hout|].
    assert (fires now t = true) as F.
    { rewrite Hf. by apply bool_decide_eq_true. }
    destruct (scan_around now m1 m2 t Hnd') as [E1 E2].
    rewrite F, (settle_fired now t F) in E1.
    exists m1, m2, (reminder <$> filter (λ x, fires now x) m1),
      (reminder <$> filter (λ x, fires now x) m2).
    split; [exact Hm|]. rewrite E1, E2. cbn [fst snd].
    split; [done|]. split; [done|]. split.
    + rewrite list_lookup_middle; [done|]. by rewrite length_fmap.
    + apply passes_around_bystander.
      * rewrite fmap_app, fmap_cons, !settle_ids.
        by rewrite fmap_app, fmap_cons in Hnd'.
      * apply Forall_forall. intros n _. apply fires_set_notified.
Qed.

(** C10. A task whose due strings do not read as an instant: the [Date]
    built from them is invalid, its comparison with [now] is false, the
    pass raises the same notifications as it would without the task, and
    the task comes out of the pass unchanged. The pass is a total
    function of the collection: nothing in it can throw. *)
Theorem unparseable_due_never_alerts (now : Z) (l1 l2 : list Todo) (t : Todo) :
  dueDateTime t = None →
  NoDup (id <$> l1 ++ t :: l2) →
  Date_ge (Some now) (dueDateTime t) = false
  ∧ fires now t = false
  ∧ (scan now (l1 ++ t :: l2)).1 = (scan now (l1 ++ l2)).1
  ∧ (scan now (l1 ++ t :: l2)).2 !! length l1 = Some t.
Proof.
  intros Hdue Hnd.
  assert (fires now t = false) as F.
  { unfold fires. rewrite Hdue. by destruct (pending t). }
  repeat split; try done.
  - by rewrite Hdue.
  - unfold scan. rewrite !checkNotifications_eq. simpl.
    by rewrite !filter_app, filter_cons, F.
  - rewrite scan_eq by done. simpl.
    rewrite list_lookup_fmap, list_lookup_middle by done. simpl. by rewrite F.
Qed.

End ScannerProperties.

Lemma scan_alerts_exactly_the_due_tasks_witness :
  NoDup (id <$> example_todos)
  ∧ (scan (host := isoLocal 0) nine_o_clock example_todos).1 = [reminder milk]
  ∧ (scan (host := isoLocal 0) nine_o_clock example_todos).2
    = [set_notified milk; laundry; report; nap].
Proof.
  split; [compute_done|].
  destruct (scan_alerts_exactly_the_due_tasks (host := isoLocal 0)
              nine_o_clock example_todos) as (H1 & H2 & _); [compute_done|].
  rewrite H1, H2. split; vm_compute; reflexivity.
Defined.

Lemma alerted_at_most_once_witness :
  NoDup (id <$> example_todos)
  ∧ concat (scans (host := isoLocal 0)
              [nine_o_clock - 60000; nine_o_clock; nine_o_clock + 60000]
              example_todos).1
    ≡ₚ [reminder milk].
Proof.
  assert (NoDup (id <$> example_todos)) as Hnd by compute_done.
  split; [exact Hnd|].
  destruct (alerted_at_most_once (host := isoLocal 0)
              [nine_o_clock - 60000; nine_o_clock; nine_o_clock + 60000]
              example_todos Hnd) as [H _].
  exact H.
Defined.

Lemma unparseable_due_never_alerts_witness :
  dueDateTime (host := isoLocal 0) nap = None
  ∧ NoDup (id <$> [milk; laundry; report] ++ nap :: [])
  ∧ (scan (host := isoLocal 0) nine_o_clock ([milk; laundry; report] ++ nap :: [])).2
      !! 3%nat = Some nap.
Proof.
  split; [compute_done|]. split; [compute_done|].
  apply (unparseable_due_never_alerts (host := isoLocal 0) nine_o_clock
           [milk; laundry; report] [] nap); compute_done.
Defined.

(** Without unique identifiers the updater, which selects by identifier,
    also marks a task that raised nothing: here a completed task that
    shares the identifier of a due one. *)
Remark shared_identifier_is_marked_too :
  (scan (host := isoLocal 0) nine_o_clock
     [milk; flip_completed milk]).1 = [reminder milk]
  ∧ (scan (host := isoLocal 0) nine_o_clock
       [milk; flip_completed milk]).2
    = [set_notified milk; set_notified (flip_completed milk)].
Proof. split; vm_compute; reflexivity. Qed.

(** Until permission is granted, and before the component is mounted, the
    effect raises nothing and changes nothing. *)
Lemma notificationEffect_idle `{host : DateHost} (isMounted : bool)
    (permission : NotificationPermission) (now : Z) (todos : list Todo) :
  isMounted = false ∨ permission ≠ granted →
  notificationEffect isMounted permission now todos = ([], todos).
Proof.
  unfold notificationEffect. intros [->|Hp]; [done|].
  by rewrite (bool_decide_eq_true_2 _ Hp), orb_true_r.
Qed.

(** ** Task repository *)

Lemma fmap_fixed {A} (f : A → A) (l : list A) :
  (∀ x, x ∈ l → f x = x) → f <$> l = l.
Proof.
  induction l as [|a l IH]; intros Hf; simpl; [done|].
  rewrite Hf by left. f_equal. apply IH. intros x Hx. apply Hf. by right.
Qed.

Lemma filter_all {A} (P : A → Prop) `{∀ x, Decision (P x)} (l : list A) :
  (∀ x, x ∈ l → P x) → filter P l = l.
Proof.
  induction l as [|a l IH]; intros Hl; [done|].
  rewrite filter_cons, decide_True by (apply Hl; left).
  f_equal. apply IH. intros x Hx. apply Hl. by right.
Qed.

Lemma sublist_filter_mono {A} (P : A → Prop) `{∀ x, Decision (P x)}
    (l k : list A) :
  l `sublist_of` k → filter P l `sublist_of` filter P k.
Proof.
  induction 1 as [|x l k Hs IH|x l k Hs IH]; rewrite ?filter_cons.
  - constructor.
  - case_decide; [by constructor|done].
  - case_decide; [by constructor|done].
Qed.

Lemma active_completed_split (todos : list Todo) :
  filter (λ todo, negb (completed todo)) todos
    ++ filter (λ todo, completed todo) todos ≡ₚ todos.
Proof.
  induction todos as [|a l IH]; [done|].
  rewrite !filter_cons. destruct (completed a); simpl.
  - rewrite <- Permutation_middle. by apply Permutation_skip.
  - by apply Permutation_skip.
Qed.

(** The two counts of the footer add up to the size of the collection. *)
Lemma counts_total (todos : list Todo) :
  (activeCount todos + completedCount todos = length todos)%nat.
Proof.
  unfold completedCount, activeCount.
  pose proof (length_filter (λ todo, negb (completed todo)) todos). lia.
Qed.

(** C3. [editTodo] keeps the length of the collection, and at every
    position: the identifier and the creation timestamp are those of the
    task before; a task with another identifier is untouched; the task
    edited is the old one overlaid with the payload, so every property the
    payload does not mention keeps its value. In particular an edit that
    does not mention [notified] leaves a true flag true. *)
Theorem editTodo_changes_only_present_fields
    (i : jsstring) (updates : TodoUpdatePayload) (todos : list Todo)
    (k : nat) (t : Todo) :
  todos !! k = Some t →
  length (editTodo i updates todos) = length todos
  ∧ ∃ t', editTodo i updates todos !! k = Some t'
      ∧ id t' = id t ∧ createdAt t' = createdAt t
      ∧ (id t ≠ i → t' = t)
      ∧ (id t = i → t' = merge t updates)
      ∧ (u_text updates = None → text t' = text t)
      ∧ (u_completed updates = None → completed t' = completed t)
      ∧ (u_dueDate updates = None → dueDate t' = dueDate t)
      ∧ (u_dueTime updates = None → dueTime t' = dueTime t)
      ∧ (u_notified updates = None → notified t' = notified t)
      ∧ (u_notified updates = None → notified t = Some true →
         notified t' = Some true).
Proof.
  intros Hk. unfold editTodo. split; [apply length_fmap|].
  rewrite list_lookup_fmap, Hk. simpl.
  eexists; split; [reflexivity|].
  destruct (decide (id t = i)) as [E|E]; simpl.
  - repeat split; try done; try (by intros ->); by intros -> ?.
  - repeat split; done.
Qed.

Lemma editTodo_changes_only_present_fields_witness :
  [set_notified milk; laundry] !! 0%nat = Some (set_notified milk)
  ∧ ∃ t', editTodo (js "a1")
            {| u_text := Some (js "Buy oat milk"); u_completed := None;
               u_dueDate := None; u_dueTime := None; u_notified := None |}
            [set_notified milk; laundry] !! 0%nat = Some t'
      ∧ text t' = js "Buy oat milk" ∧ notified t' = Some true.
Proof.
  split; [reflexivity|].
  destruct (editTodo_changes_only_present_fields (js "a1")
              {| u_text := Some (js "Buy oat milk"); u_completed := None;
                 u_dueDate := None; u_dueTime := None; u_notified := None |}
              [set_notified milk; laundry] 0 (set_notified milk) eq_refl)
    as (_ & t' & Hk & _ & _ & _ & Hm & _ & _ & _ & _ & _ & Hn).
  exists t'. split; [exact Hk|]. split.
  - rewrite Hm by reflexivity. reflexivity.
  - apply Hn; reflexivity.
Defined.

(** C6. The three views of a collection: [All] is the collection itself;
    [Active] holds exactly its tasks with [completed = false] and
    [Completed] exactly those with [completed = true]; no task is in both;
    a task is in the collection if and only if it is in one of the two;
    each view is a subsequence of the collection (its order is kept), and
    the two views together are a rearrangement of the collection. *)
Theorem filtered_views_partition (todos : list Todo) :
  filteredTodos All todos = todos
  ∧ (∀ t, t ∈ filteredTodos Active todos ↔ t ∈ todos ∧ completed t = false)
  ∧ (∀ t, t ∈ filteredTodos Completed todos ↔ t ∈ todos ∧ completed t = true)
  ∧ (∀ t, ¬ (t ∈ filteredTodos Active todos ∧ t ∈ filteredTodos Completed todos))
  ∧ (∀ t, t ∈ filteredTodos All todos ↔
          t ∈ filteredTodos Active todos ∨ t ∈ filteredTodos Completed todos)
  ∧ (∀ f, filteredTodos f todos `sublist_of` todos)
  ∧ filteredTodos Active todos ++ filteredTodos Completed todos ≡ₚ todos.
Proof.
  assert (∀ t, t ∈ filteredTodos Active todos ↔ t ∈ todos ∧ completed t = false)
    as HA.
  { intros t. unfold filteredTodos. rewrite list_elem_of_filter. simpl.
    destruct (completed t); simpl; intuition congruence. }
  assert (∀ t, t ∈ filteredTodos Completed todos ↔ t ∈ todos ∧ completed t = true)
    as HC.
  { intros t. unfold filteredTodos. rewrite list_elem_of_filter. simpl.
    destruct (completed t); simpl; intuition congruence. }
  assert (filteredTodos All todos = todos) as HAll.
  { unfold filteredTodos. by apply filter_all. }
  split; [done|]. split; [done|]. split; [done|]. split; [|split; [|split]].
  - intros t [[_ E1]%HA [_ E2]%HC]. congruence.
  - intros t. rewrite HAll, HA, HC. destruct (completed t); intuition congruence.
  - intros f. apply sublist_filter.
  - apply active_completed_split.
Qed.

(** C7. [clearCompleted] keeps a subsequence of the collection (order and
    contents of what stays are unchanged); what stays is not completed;
    every task that is not completed stays, as often as it occurred (the
    result contains every non-completed subsequence of the collection);
    and what is gone are exactly the completed tasks. *)
Theorem clearCompleted_removes_exactly_completed (todos : list Todo) :
  clearCompleted todos `sublist_of` todos
  ∧ Forall (λ t, completed t = false) (clearCompleted todos)
  ∧ (∀ t, t ∈ clearCompleted todos ↔ t ∈ todos ∧ completed t = false)
  ∧ (∀ l, l `sublist_of` todos → Forall (λ t, completed t = false) l →
          l `sublist_of` clearCompleted todos)
  ∧ todos ≡ₚ clearCompleted todos ++ filter (λ t, completed t) todos.
Proof.
  unfold clearCompleted. split; [apply sublist_filter|].
  split; [|split; [|split]].
  - apply Forall_forall. intros t [Ht _]%list_elem_of_filter.
    by destruct (completed t).
  - intros t. rewrite list_elem_of_filter.
    destruct (completed t); simpl; intuition congruence.
  - intros l Hs Hl.
    rewrite <- (filter_all (λ t, negb (completed t)) l).
    + by apply sublist_filter_mono.
    + intros x Hx. rewrite Forall_forall in Hl. by rewrite (Hl x Hx).
  - symmetry. apply active_completed_split.
Qed.



(** C9. On an identifier that no task of the collection has, [toggleTodo],
    [deleteTodo] and [editTodo] return the collection unchanged. *)
Theorem absent_id_is_noop (i : jsstring) (todos : list Todo) :
  i ∉ id <$> todos →
  toggleTodo i todos = todos
  ∧ deleteTodo i todos = todos
  ∧ ∀ updates, editTodo i updates todos = todos.
Proof.
  intros Hi.
  assert (∀ t, t ∈ todos → id t ≠ i) as Hne.
  { intros t Ht E. apply Hi. rewrite <- E. by apply list_elem_of_fmap_2. }
  split; [|split; [|intros updates]].
  - apply fmap_fixed. intros t Ht. by rewrite decide_False by auto.
  - apply filter_all. auto.
  - apply fmap_fixed. intros t Ht. by rewrite decide_False by auto.
Qed.

Lemma absent_id_is_noop_witness :
  (js "zz" ∉ id <$> example_todos)
  ∧ toggleTodo (js "zz") example_todos = example_todos
  ∧ deleteTodo (js "zz") example_todos = example_todos.
Proof.
  split; [compute_done|].
  destruct (absent_id_is_noop (js "zz") example_todos) as (H1 & H2 & _);
    [compute_done|].
  exact (conj H1 H2).
Defined.

(** ** [JSON.parse] on sample texts *)

Example parse_nested_with_white_space :
  JSON_parse (js " [1, -20 , true,null, {" ++ quoted "a" ++ js " : "
              ++ quoted "A\n" ++ js ", " ++ quoted "b" ++ js ":[]} ] ")
  = Some (JArr [JNum 1; JNum (-20); JBool true; JNull;
                JObj [(js "a", JStr [65; 10]%N); (js "b", JArr [])]]).
Proof. vm_compute. reflexivity. Qed.

Example parse_fraction_and_exponent :
  JSON_parse (js "-2.5e+3") = Some (JReal (js "-2.5e+3")).
Proof. vm_compute. reflexivity. Qed.

Example parse_unicode_escape :
  JSON_parse (quoted "\u00e9\u20AC") = Some (JStr [233; 8364]%N).
Proof. vm_compute. reflexivity. Qed.

Example parse_rejects :
  JSON_parse [] = None ∧ JSON_parse (js "01") = None
  ∧ JSON_parse (js "[1,]") = None ∧ JSON_parse (js "tru") = None
  ∧ JSON_parse (js "1.") = None
  ∧ JSON_parse (js "{" ++ quoted "a" ++ js " 1}") = None
  ∧ JSON_parse (js "[] []") = None ∧ JSON_parse (js "'a'") = None.
Proof. repeat split; vm_compute; reflexivity. Qed.

Example stringify_escapes :
  stringify (JStr [34; 92; 10; 7; 55357; 56832; 55357]%N)
  = [34%N] ++ js "\" ++ [34%N] ++ js "\\\n\u0007" ++ [55357; 56832]%N
    ++ js "\ud83d" ++ [34%N].
Proof. vm_compute. reflexivity. Qed.

(** ** JSON text: what [JSON.stringify] writes, [JSON.parse] reads back *)

(** *** Strings *)

Lemma hexval_hexdigit (n : N) : (n < 16)%N → hexval (hexdigit n) = Some n.
Proof.
  intros Hn. unfold hexdigit. case_bool_decide; unfold hexval.
  - rewrite bool_decide_eq_true_2 by lia. f_equal. lia.
  - rewrite bool_decide_eq_false_2 by lia.
    rewrite bool_decide_eq_true_2 by lia. f_equal. lia.
Qed.

Lemma nibbles (c : N) :
  (c < 65536)%N →
  ((((c / 4096 mod 16) * 16 + c / 256 mod 16) * 16 + c / 16 mod 16) * 16
   + c mod 16 = c)%N.
Proof.
  intros Hc.
  pose proof (N.div_mod c 16). pose proof (N.div_mod (c / 16) 16).
  pose proof (N.div_mod (c / 16 / 16) 16).
  rewrite !N.Div0.div_div in *. change (16 * 16)%N with 256%N in *.
  change (256 * 16)%N with 4096%N in *.
  assert (c / 4096 < 16)%N by (apply N.Div0.div_lt_upper_bound; lia).
  rewrite (N.mod_small (c / 4096) 16) in * by done. lia.
Qed.

Lemma parse_chars_uescape (c : N) (x : jsstring) :
  (c < 65536)%N →
  parse_chars (uescape c ++ x) = p ← parse_chars x; Some (c :: p.1, p.2).
Proof.
  intros Hc. unfold uescape. simpl.
  rewrite !hexval_hexdigit by (apply N.mod_upper_bound; lia). simpl.
  by rewrite nibbles.
Qed.

Lemma parse_chars_escape (c e : N) (x : jsstring) :
  escape_of c = Some e →
  parse_chars (92%N :: e :: x) = p ← parse_chars x; Some (c :: p.1, p.2).
Proof.
  unfold escape_of. intros He.
  repeat case_bool_decide; simplify_eq; reflexivity.
Qed.

Lemma parse_chars_raw (c : N) (x : jsstring) :
  escape_of c = None → (32 ≤ c)%N →
  parse_chars (c :: x) = p ← parse_chars x; Some (c :: p.1, p.2).
Proof.
  unfold escape_of. intros He Hc. simpl.
  repeat case_bool_decide; simplify_eq; (reflexivity || lia).
Qed.

(** Reading back the characters [quote_chars] wrote, up to the closing
    quote. *)
Lemma parse_quote_chars (n : nat) : ∀ (s rest : jsstring),
  (length s ≤ n)%nat →
  parse_chars (quote_chars s ++ 34%N :: rest) = Some (s, rest).
Proof.
  induction n as [|n IH]; intros s rest Hn.
  - destruct s; [reflexivity|simpl in Hn; lia].
  - destruct s as [|c r]; [reflexivity|]. simpl in Hn.
    assert (∀ x, parse_chars x = Some (r, rest) →
              (p ← parse_chars x; Some (c :: p.1, p.2)) = Some (c :: r, rest))
      as Hstep by (by intros x ->).
    cbn [quote_chars].
    destruct (escape_of c) as [e|] eqn:He.
    { cbn [app]. rewrite (parse_chars_escape c e) by done.
      apply Hstep, IH. lia. }
    case_bool_decide as H32.
    { rewrite <- app_assoc, parse_chars_uescape by lia. apply Hstep, IH. lia. }
    destruct (is_lead c) eqn:Hl.
    { unfold is_lead in Hl. apply bool_decide_eq_true in Hl.
      destruct r as [|d r'].
      - rewrite parse_chars_uescape by lia. reflexivity.
      - destruct (is_trail d) eqn:Ht.
        + unfold is_trail in Ht. apply bool_decide_eq_true in Ht.
          cbn [app]. rewrite parse_chars_raw by (done || lia).
          assert (escape_of d = None) as Hd.
          { unfold escape_of. repeat case_bool_decide; (done || lia). }
          rewrite parse_chars_raw by (done || lia).
          rewrite IH by (simpl in Hn; lia). reflexivity.
        + rewrite <- app_assoc, parse_chars_uescape by lia.
          apply Hstep, IH. lia. }
    destruct (is_trail c) eqn:Ht.
    { unfold is_trail in Ht. apply bool_decide_eq_true in Ht.
      rewrite <- app_assoc, parse_chars_uescape by lia. apply Hstep, IH. lia. }
    cbn [app]. rewrite parse_chars_raw by (done || lia).
    apply Hstep, IH. lia.
Qed.

Lemma parse_quote (s rest : jsstring) :
  parse_chars (quote_chars s ++ 34%N :: rest) = Some (s, rest).
Proof. by apply (parse_quote_chars (length s)). Qed.

(** *** Numbers *)

Lemma digit_cons_units (d : uint) :
  match uint_units d with
  | [] => d = Nil
  | c :: r => ∃ k d', digit_cons c = Some k ∧ d = k d' ∧ r = uint_units d'
              ∧ (48 ≤ c ≤ 57)%N
  end.
Proof.
  destruct d; simpl; first done; eexists _, _;
    (split; [reflexivity|]); (split; [reflexivity|]); split; (done || lia).
Qed.

Lemma read_digits_units (d : uint) (rest : jsstring) :
  ends_number rest → read_digits (uint_units d ++ rest) = (d, rest).
Proof.
  intros Hrest.
  induction d; simpl; rewrite ?IHd; try reflexivity.
  destruct rest as [|c rest]; [done|]. simpl in *.
  assert (digit_cons c = None) as ->; [|done].
  unfold digit_cons. repeat case_bool_decide; (done || lia).
Qed.

Lemma int_part_ok_unorm (d : uint) :
  d ≠ Nil → unorm d = d → int_part_ok d = true.
Proof.
  intros Hnil Hd. destruct d as [|d'| | | | | | | | |]; try done.
  destruct d' as [| | | | | | | | | |]; try done; exfalso;
    match type of Hd with
    | unorm (D0 ?u) = _ =>
        assert (u ≠ Nil) as Hu by done;
        pose proof (nb_digits_unorm u Hu) as Hlen;
        assert (unorm (D0 u) = unorm u) as E
          by (unfold unorm; by rewrite nzhead_D0);
        rewrite E in Hd; rewrite Hd in Hlen; simpl in Hlen; lia
    end.
Qed.

Lemma int_part_ok_to_uint (p : positive) : int_part_ok (Pos.to_uint p) = true.
Proof.
  apply int_part_ok_unorm.
  - apply Unsigned.to_uint_nonnil.
  - rewrite <- DecimalPos.Unsigned.to_of, DecimalPos.Unsigned.of_to. done.
Qed.

Lemma parse_number_signed (sg : bool) (d : uint) (rest : jsstring) :
  int_part_ok d = true → ends_number rest →
  parse_number ((if sg then [45%N] else []) ++ uint_units d ++ rest)
    = Some (JNum (Z.of_int (if sg then Neg d else Pos d)), rest).
Proof.
  intros Hd Hrest.
  assert (read_fraction rest = Some ([], rest)) as Hf.
  { destruct rest as [|c rest]; [done|]. simpl in *.
    rewrite bool_decide_eq_false_2; [done|lia]. }
  assert (read_exponent rest = Some ([], rest)) as He.
  { destruct rest as [|c rest]; [done|]. simpl in *.
    rewrite bool_decide_eq_false_2; [done|lia]. }
  unfold parse_number. destruct sg; cbn [app].
  - rewrite bool_decide_eq_true_2 by done. cbn [fst snd].
    rewrite read_digits_units by done. cbn [fst snd].
    rewrite Hd, Hf. cbn [mbind option_bind fst snd]. rewrite He. done.
  - pose proof (digit_cons_units d) as Hh.
    destruct (uint_units d) as [|c r] eqn:Hu; [by subst d|].
    destruct Hh as (k & d' & Hk & Hd' & -> & Hc).
    cbn [app]. rewrite bool_decide_eq_false_2 by lia. cbn [fst snd].
    change (c :: uint_units d' ++ rest) with ((c :: uint_units d') ++ rest).
    rewrite <- Hu, read_digits_units by done. cbn [fst snd].
    rewrite Hd, Hf. cbn [mbind option_bind fst snd]. rewrite He. done.
Qed.

Lemma parse_number_units (z : Z) (rest : jsstring) :
  ends_number rest →
  parse_number (number_units z ++ rest) = Some (JNum z, rest).
Proof.
  intros Hrest. unfold number_units.
  pose proof (DecimalZ.of_to z) as Hz.
  destruct z as [|p|p]; simpl Z.to_int in *; cbv iota beta.
  - exact (parse_number_signed false zero rest eq_refl Hrest).
  - rewrite <- Hz.
    exact (parse_number_signed false _ rest (int_part_ok_to_uint p) Hrest).
  - rewrite <- Hz.
    exact (parse_number_signed true _ rest (int_part_ok_to_uint p) Hrest).
Qed.

(** *** Values *)

Lemma json_ind (P : json → Prop) :
  P JNull → (∀ b, P (JBool b)) → (∀ z, P (JNum z)) → (∀ lit, P (JReal lit)) →
  (∀ s, P (JStr s)) →
  (∀ items, Forall P items → P (JArr items)) →
  (∀ members, Forall (λ m, P m.2) members → P (JObj members)) →
  ∀ v, P v.
Proof.
  intros Hnull Hbool Hnum Hreal Hstr Harr Hobj.
  fix IH 1. intros [|b|z|lit|s|items|members].
  - apply Hnull.
  - apply Hbool.
  - apply Hnum.
  - apply Hreal.
  - apply Hstr.
  - apply Harr. induction items as [|x l IHl]; constructor;
      [apply IH | exact IHl].
  - apply Hobj. induction members as [|[k x] l IHl]; constructor;
      [apply IH | exact IHl].
Qed.

Lemma storable_JArr (items : list json) :
  storable (JArr items) ↔ Forall storable items.
Proof.
  induction items as [|x l IH]; simpl.
  - split; [constructor|done].
  - rewrite Forall_cons. simpl in IH. by rewrite IH.
Qed.

Lemma storable_JObj (members : list (jsstring * json)) :
  storable (JObj members) ↔ Forall (λ m, storable m.2) members.
Proof.
  induction members as [|[k x] l IH]; simpl.
  - split; [constructor|done].
  - rewrite Forall_cons. simpl in IH. by rewrite IH.
Qed.

Lemma number_units_head (z : Z) :
  ∃ c r, number_units z = c :: r ∧ (c = 45%N ∨ (48 ≤ c ≤ 57)%N).
Proof.
  unfold number_units.
  destruct (Z.to_int z) as [d|d] eqn:E.
  - pose proof (digit_cons_units d) as Hh.
    destruct (uint_units d) as [|c r].
    + subst d. destruct z; simpl in E; simplify_eq.
      all: by match goal with H : Pos.to_uint _ = Nil |- _ =>
                apply Unsigned.to_uint_nonnil in H end.
    + destruct Hh as (_ & _ & _ & _ & _ & Hc). eauto.
  - eauto.
Qed.

(** The first character of a value's text is not white space and closes
    nothing. *)
Lemma stringify_head (v : json) :
  storable v →
  ∃ c r, stringify v = c :: r ∧ is_ws c = false ∧ c ≠ 93%N ∧ c ≠ 125%N.
Proof.
  destruct v as [|[]|z|lit|s|items|members]; simpl; intros Hv;
    try (eexists _, _; split; [reflexivity|]; by compute).
  - destruct (number_units_head z) as (c & r & -> & Hc).
    exists c, r. split; [done|]. unfold is_ws.
    rewrite bool_decide_eq_false_2 by lia. split; [done|]. lia.
  - done.
Qed.

Lemma skip_ws_head (c : N) (r : jsstring) :
  is_ws c = false → skip_ws (c :: r) = c :: r.
Proof. intros H. simpl. by rewrite H. Qed.

(** Bring a text to the form [c1 :: c2 :: ... ++ rest]. *)
Ltac flatten_text :=
  rewrite <- ?app_assoc; cbn [app]; rewrite <- ?app_assoc; cbn [app].

Lemma parse_stringify_elements (l : list json) :
  l ≠ [] → Forall reads_back l → Forall storable l →
  ∀ fuel rest, (size_elements l ≤ fuel)%nat →
    parse_elements fuel (stringify_elements l ++ 93%N :: rest) = Some (l, rest).
Proof.
  induction l as [|x l IH]; [done|]. intros _ Hrb Hst fuel rest Hfuel.
  apply Forall_cons in Hrb as [Hx Hrb]. apply Forall_cons in Hst as [Sx Hst].
  destruct fuel as [|n]; [simpl in Hfuel; lia|].
  simpl in Hfuel. cbn [parse_elements].
  destruct l as [|y l].
  - cbn [stringify_elements]. rewrite Hx by (simpl; auto; lia).
    reflexivity.
  - change (stringify_elements (x :: y :: l))
      with (stringify x ++ 44%N :: stringify_elements (y :: l)).
    rewrite <- app_assoc. cbn [app].
    rewrite Hx by (simpl; auto; lia).
    cbn [mbind option_bind fst snd]. rewrite skip_ws_head by done.
    rewrite bool_decide_eq_true_2 by done.
    rewrite IH by (done || lia). reflexivity.
Qed.

Lemma parse_stringify_properties (l : list (jsstring * json)) :
  l ≠ [] → Forall (λ m, reads_back m.2) l → Forall (λ m, storable m.2) l →
  ∀ fuel rest, (size_members l ≤ fuel)%nat →
    parse_members fuel (stringify_properties l ++ 125%N :: rest)
      = Some (l, rest).
Proof.
  induction l as [|[k x] l IH]; [done|]. intros _ Hrb Hst fuel rest Hfuel.
  apply Forall_cons in Hrb as [Hx Hrb]. apply Forall_cons in Hst as [Sx Hst].
  simpl in Hx, Sx.
  destruct fuel as [|n]; [simpl in Hfuel; lia|].
  simpl in Hfuel. cbn [parse_members].
  destruct l as [|[k' y] l].
  - cbn [stringify_properties]. unfold quote.
    flatten_text. rewrite skip_ws_head by done.
    rewrite bool_decide_eq_true_2 by done.
    rewrite parse_quote. cbn [mbind option_bind fst snd].
    rewrite skip_ws_head by done. rewrite bool_decide_eq_true_2 by done.
    rewrite Hx by (simpl; auto; lia). reflexivity.
  - change (stringify_properties ((k, x) :: (k', y) :: l))
      with (quote k ++ 58%N :: stringify x
              ++ 44%N :: stringify_properties ((k', y) :: l)).
    unfold quote at 1.
    flatten_text. rewrite skip_ws_head by done.
    rewrite bool_decide_eq_true_2 by done.
    rewrite parse_quote. cbn [mbind option_bind fst snd].
    rewrite skip_ws_head by done. rewrite bool_decide_eq_true_2 by done.
    rewrite Hx by (simpl; auto; lia).
    cbn [mbind option_bind fst snd]. rewrite skip_ws_head by done.
    rewrite bool_decide_eq_true_2 by done.
    rewrite IH by (done || lia). reflexivity.
Qed.

Lemma stringify_elements_head (x : json) (l : list json) (rest : jsstring) :
  storable x →
  ∃ c r, stringify_elements (x :: l) ++ rest = c :: r
         ∧ is_ws c = false ∧ c ≠ 93%N.
Proof.
  intros Sx. destruct (stringify_head x Sx) as (c & r & E & Hws & H93 & _).
  destruct l as [|y l].
  - exists c, (r ++ rest). cbn [stringify_elements]. by rewrite E.
  - exists c, (r ++ 44%N :: stringify_elements (y :: l) ++ rest).
    change (stringify_elements (x :: y :: l))
      with (stringify x ++ 44%N :: stringify_elements (y :: l)).
    rewrite E. by flatten_text.
Qed.

Lemma stringify_properties_head (k : jsstring) (x : json)
    (l : list (jsstring * json)) (rest : jsstring) :
  ∃ r, stringify_properties ((k, x) :: l) ++ rest = 34%N :: r.
Proof.
  destruct l as [|[k' y] l].
  - cbn [stringify_properties]. unfold quote. flatten_text. eauto.
  - change (stringify_properties ((k, x) :: (k', y) :: l))
      with (quote k ++ 58%N :: stringify x
              ++ 44%N :: stringify_properties ((k', y) :: l)).
    unfold quote at 1. flatten_text. eauto.
Qed.

Lemma parse_stringify (v : json) : storable v → reads_back v.
Proof.
  induction v as [|b|z|lit|s|items IH|members IH] using json_ind;
    intros Sv fuel rest Hfuel Hrest;
    (destruct fuel as [|n]; [simpl in Hfuel; lia|]).
  - reflexivity.
  - by destruct b.
  - destruct (number_units_head z) as (c & r & E & Hc).
    cbn [stringify parse_value]. rewrite E. cbn [app].
    rewrite skip_ws_head
      by (unfold is_ws; rewrite bool_decide_eq_false_2; [done|lia]).
    rewrite !(bool_decide_eq_false_2 (c = _)) by lia.
    assert (bool_decide (c = 45%N) || bool_decide (48 ≤ c ≤ 57)%N = true) as ->.
    { apply orb_true_iff. rewrite !bool_decide_eq_true. lia. }
    change (c :: r ++ rest) with ((c :: r) ++ rest).
    rewrite <- E. by apply parse_number_units.
  - done.
  - cbn [stringify parse_value]. unfold quote. flatten_text.
    rewrite skip_ws_head by done.
    rewrite !(bool_decide_eq_false_2 (34%N = _)) by done.
    rewrite bool_decide_eq_true_2 by done.
    by rewrite parse_quote.
  - apply storable_JArr in Sv.
    change (stringify (JArr items))
      with (91%N :: stringify_elements items ++ [93%N]).
    change (size (JArr items)) with (S (size_elements items)) in Hfuel.
    cbn [parse_value]. flatten_text. rewrite skip_ws_head by done.
    rewrite bool_decide_eq_false_2 by done.
    rewrite bool_decide_eq_true_2 by done.
    destruct items as [|x l]; [reflexivity|].
    destruct (stringify_elements_head x l (93%N :: rest))
      as (c & r & E & Hws & H93); [by apply Forall_cons in Sv as [? _]|].
    rewrite E at 1. rewrite skip_ws_head by done.
    rewrite bool_decide_eq_false_2 by done.
    rewrite parse_stringify_elements; try done; [|lia].
    eapply Forall_impl; [apply Forall_and; split; [exact IH|exact Sv]|].
    intros y [Hy Sy]. auto.
  - apply storable_JObj in Sv.
    change (stringify (JObj members))
      with (123%N :: stringify_properties members ++ [125%N]).
    change (size (JObj members)) with (S (size_members members)) in Hfuel.
    cbn [parse_value]. flatten_text. rewrite skip_ws_head by done.
    rewrite bool_decide_eq_true_2 by done.
    destruct members as [|[k x] l]; [reflexivity|].
    destruct (stringify_properties_head k x l (125%N :: rest)) as (r & E).
    rewrite E at 1. rewrite skip_ws_head by done.
    rewrite bool_decide_eq_false_2 by done.
    rewrite parse_stringify_properties; try done; [|lia].
    eapply Forall_impl; [apply Forall_and; split; [exact IH|exact Sv]|].
    intros y [Hy Sy]. auto.
Qed.

Lemma size_elements_le (l : list json) :
  Forall (λ x, (size x ≤ length (stringify x))%nat) l →
  (size_elements l ≤ length (stringify_elements l) + 1)%nat.
Proof.
  induction 1 as [|x l Hx Hl IH]; [simpl; lia|].
  destruct l as [|y l].
  - simpl. lia.
  - change (stringify_elements (x :: y :: l))
      with (stringify x ++ 44%N :: stringify_elements (y :: l)).
    change (size_elements (x :: y :: l))
      with (S (size x) + size_elements (y :: l))%nat.
    rewrite length_app. cbn [length]. lia.
Qed.

Lemma size_members_le (l : list (jsstring * json)) :
  Forall (λ m, (size m.2 ≤ length (stringify m.2))%nat) l →
  (size_members l ≤ length (stringify_properties l) + 1)%nat.
Proof.
  induction 1 as [|[k x] l Hx Hl IH]; [simpl; lia|]. simpl in Hx.
  destruct l as [|[k' y] l].
  - simpl. rewrite length_app. simpl. lia.
  - change (stringify_properties ((k, x) :: (k', y) :: l))
      with (quote k ++ 58%N :: stringify x
              ++ 44%N :: stringify_properties ((k', y) :: l)).
    change (size_members ((k, x) :: (k', y) :: l))
      with (S (size x) + size_members ((k', y) :: l))%nat.
    rewrite length_app. cbn [length]. rewrite length_app. cbn [length]. lia.
Qed.

Lemma size_le_length (v : json) :
  storable v → (size v ≤ length (stringify v))%nat.
Proof.
  induction v as [|b|z|lit|s|items IH|members IH] using json_ind; intros Sv.
  - simpl. lia.
  - destruct b; simpl; lia.
  - destruct (number_units_head z) as (c & r & E & _).
    cbn [stringify size]. rewrite E. simpl. lia.
  - done.
  - simpl. lia.
  - apply storable_JArr in Sv.
    change (stringify (JArr items))
      with (91%N :: stringify_elements items ++ [93%N]).
    change (size (JArr items)) with (S (size_elements items)).
    cbn [length]. rewrite length_app. cbn [length].
    pose proof (size_elements_le items) as Hle.
    assert (Forall (λ x, (size x ≤ length (stringify x))%nat) items) as Hall.
    { eapply Forall_impl; [apply Forall_and; split; [exact IH|exact Sv]|].
      intros y [Hy Sy]. auto. }
    specialize (Hle Hall). lia.
  - apply storable_JObj in Sv.
    change (stringify (JObj members))
      with (123%N :: stringify_properties members ++ [125%N]).
    change (size (JObj members)) with (S (size_members members)).
    cbn [length]. rewrite length_app. cbn [length].
    pose proof (size_members_le members) as Hle.
    assert (Forall (λ m, (size m.2 ≤ length (stringify m.2))%nat) members)
      as Hall.
    { eapply Forall_impl; [apply Forall_and; split; [exact IH|exact Sv]|].
      intros y [Hy Sy]. auto. }
    specialize (Hle Hall). lia.
Qed.

(** [JSON.parse] reads back what [JSON.stringify] wrote. *)
Lemma JSON_parse_stringify (v : json) :
  storable v → JSON_parse (stringify v) = Some v.
Proof.
  intros Sv. unfold JSON_parse.
  pose proof (size_le_length v Sv) as Hsize.
  pose proof (parse_stringify v Sv (2 * length (stringify v) + 2)%nat [])
    as Hp.
  rewrite app_nil_r in Hp. rewrite Hp; [done|lia|done].
Qed.

(** *** [Todo] collections *)

Lemma todoOfJSON_todoToJSON (t : Todo) :
  safe_integer (createdAt t) → todoOfJSON (todoToJSON t) = Some t.
Proof.
  destruct t as [i x c a dd dt n]. simpl. intros Ha.
  assert (as_number (Some (JNum a)) = Some a) as Hnum
    by (unfold as_number; by rewrite decide_True).
  destruct dd, dt, n; cbv -[as_number]; rewrite Hnum; reflexivity.
Qed.

Lemma todosOfJSON_todosToJSON (todos : list Todo) :
  valid todos → todosOfJSON (todosToJSON todos) = Some todos.
Proof.
  intros Hv. unfold todosOfJSON, todosToJSON.
  apply mapM_fmap_Forall_Some.
  eapply Forall_impl; [exact Hv|]. apply todoOfJSON_todoToJSON.
Qed.

Lemma storable_todosToJSON (todos : list Todo) :
  valid todos → storable (todosToJSON todos).
Proof.
  intros Hv. unfold todosToJSON. apply storable_JArr, Forall_fmap.
  eapply Forall_impl; [exact Hv|].
  intros [i x c a dd dt n] Ha. simpl in *. by destruct dd, dt, n.
Qed.

Lemma loadEffect_stored (localStorage : Storage) (stored : jsstring) (v : json) :
  getItem LOCAL_STORAGE_KEY localStorage = Some stored →
  stored ≠ [] → JSON_parse stored = Some v →
  loadEffect localStorage = Normal (Some v, localStorage).
Proof.
  intros Hget Hne Hparse. unfold loadEffect, JSON_parse_call.
  rewrite Hget, Hparse. by destruct stored.
Qed.

(** Whatever the layout of the objects saved (the order of their
    properties, properties [Todo] does not declare), the load effect holds
    the collection they are when read through [Todo]. *)
Lemma load_any_layout (v : json) (todos : list Todo) (localStorage : Storage) :
  storable v → todosOfJSON v = Some todos →
  load (setItem LOCAL_STORAGE_KEY (stringify v) localStorage)
    = Normal (Some todos, setItem LOCAL_STORAGE_KEY (stringify v) localStorage).
Proof.
  intros Sv Hv. unfold load.
  rewrite (loadEffect_stored _ (stringify v) v).
  - cbn [held fst snd]. by rewrite Hv.
  - unfold getItem, setItem. apply lookup_insert_eq.
  - by destruct (stringify_head v Sv) as (c & r & -> & _).
  - by apply JSON_parse_stringify.
Qed.

(** ** Persistent store *)

Example load_reads_reordered_properties :
  load {[LOCAL_STORAGE_KEY := reordered_text]}
  = Normal (Some [{| id := js "a"; text := js "x"; completed := true;
                     createdAt := 5; dueDate := None; dueTime := None;
                     notified := None |}],
            {[LOCAL_STORAGE_KEY := reordered_text]}).
Proof. vm_compute. reflexivity. Qed.

(** C4. Once the component is mounted, saving a collection whose
    timestamps are safe integers and then running the load effect on the
    storage completes normally, holds the same collection again, and
    leaves the storage as the save wrote it. The same holds for the text
    of any value that is this collection when read through [Todo]. *)
Theorem save_then_load_round_trip (todos : list Todo) (localStorage : Storage) :
  valid todos →
  load (save todos localStorage) = Normal (Some todos, save todos localStorage)
  ∧ ∀ v, storable v → todosOfJSON v = Some todos →
      load (setItem LOCAL_STORAGE_KEY (stringify v) localStorage)
        = Normal (Some todos,
                  setItem LOCAL_STORAGE_KEY (stringify v) localStorage).
Proof.
  intros Hv. split.
  - apply load_any_layout.
    + by apply storable_todosToJSON.
    + by apply todosOfJSON_todosToJSON.
  - intros v Sv Hview. by apply load_any_layout.
Qed.

Lemma save_then_load_round_trip_witness :
  valid example_todos
  ∧ load (save example_todos ∅) = Normal (Some example_todos, save example_todos ∅).
Proof.
  assert (valid example_todos) as Hv.
  { unfold valid, example_todos.
    repeat (apply Forall_cons; split); [..|apply Forall_nil];
      unfold safe_integer, MAX_SAFE_INTEGER; simpl; lia. }
  split; [exact Hv|].
  exact (proj1 (save_then_load_round_trip example_todos ∅ Hv)).
Defined.

(** C5 as stated fails on a slot that holds the empty string: the text is
    not JSON, yet the load effect treats it as absent and leaves the slot
    as it is. *)
Lemma load_keeps_empty_string_slot :
  getItem LOCAL_STORAGE_KEY {[LOCAL_STORAGE_KEY := []]} = Some []
  ∧ JSON_parse [] = None
  ∧ load {[LOCAL_STORAGE_KEY := []]}
    = Normal (Some [], {[LOCAL_STORAGE_KEY := []]})
  ∧ load {[LOCAL_STORAGE_KEY := []]}
    ≠ Normal (Some [], removeItem LOCAL_STORAGE_KEY {[LOCAL_STORAGE_KEY := []]}).
Proof.
  assert (load {[LOCAL_STORAGE_KEY := []]}
          = Normal (Some [], {[LOCAL_STORAGE_KEY := []]})) as Hload.
  { unfold load, loadEffect, getItem. by rewrite lookup_singleton_eq. }
  split; [apply lookup_singleton_eq|]. split; [reflexivity|].
  split; [exact Hload|].
  rewrite Hload. intros E.
  apply (f_equal (λ c, match c with
                       | Normal r => getItem LOCAL_STORAGE_KEY r.2
                       | Throw _ => None
                       end)) in E.
  unfold getItem, removeItem in E. cbn [snd] in E.
  by rewrite lookup_singleton_eq, lookup_delete_eq in E.
Qed.

(** C5, amended. The load effect never throws. On an absent slot, and on
    a slot that holds the empty string, the collection held is empty and
    the storage is untouched. On a slot that holds non-empty text
    [JSON.parse] rejects, the collection held is empty and the slot is
    removed. *)
Theorem load_recovers_from_bad_slot (localStorage : Storage) :
  (∃ r, load localStorage = Normal r)
  ∧ (getItem LOCAL_STORAGE_KEY localStorage = None →
     load localStorage = Normal (Some [], localStorage))
  ∧ (getItem LOCAL_STORAGE_KEY localStorage = Some [] →
     load localStorage = Normal (Some [], localStorage))
  ∧ (∀ stored,
       getItem LOCAL_STORAGE_KEY localStorage = Some stored →
       stored ≠ [] → JSON_parse stored = None →
       load localStorage
         = Normal (Some [], removeItem LOCAL_STORAGE_KEY localStorage)
       ∧ getItem LOCAL_STORAGE_KEY
           (removeItem LOCAL_STORAGE_KEY localStorage) = None).
Proof.
  unfold load, loadEffect, JSON_parse_call.
  split; [|split; [|split]].
  - destruct (getItem _ _) as [[|c stored]|]; simpl; eauto.
    destruct (JSON_parse _); simpl; eauto.
  - by intros ->.
  - by intros ->.
  - intros stored -> Hne Hparse. rewrite Hparse.
    destruct stored; [done|]. simpl. split; [done|].
    unfold getItem, removeItem. apply lookup_delete_eq.
Qed.

Lemma load_recovers_from_bad_slot_witness :
  getItem LOCAL_STORAGE_KEY {[LOCAL_STORAGE_KEY := js "{oops"]}
    = Some (js "{oops")
  ∧ js "{oops" ≠ []
  ∧ JSON_parse (js "{oops") = None
  ∧ load {[LOCAL_STORAGE_KEY := js "{oops"]}
    = Normal (Some [],
              removeItem LOCAL_STORAGE_KEY {[LOCAL_STORAGE_KEY := js "{oops"]}).
Proof.
  assert (getItem LOCAL_STORAGE_KEY {[LOCAL_STORAGE_KEY := js "{oops"]}
          = Some (js "{oops")) as Hget by apply lookup_singleton_eq.
  assert (js "{oops" ≠ []) as Hne by done.
  assert (JSON_parse (js "{oops") = None) as Hparse by (vm_compute; reflexivity).
  split; [exact Hget|]. split; [exact Hne|]. split; [exact Hparse|].
  destruct (load_recovers_from_bad_slot {[LOCAL_STORAGE_KEY := js "{oops"]})
    as (_ & _ & _ & H).
  exact (proj1 (H (js "{oops") Hget Hne Hparse)).
Defined.

(** * Further properties of [App] *)

(** ** Repository operations *)

Lemma fmap_fixed_inv {A} (f : A → A) (l : list A) :
  f <$> l = l → ∀ x, x ∈ l → f x = x.
Proof.
  induction l as [|a l IH]; intros E x Hx.
  - by apply elem_of_nil in Hx.
  - simpl in E. injection E as Ea El.
    apply elem_of_cons in Hx as [->|Hx]; auto.
Qed.

Lemma flip_completed_involutive t : flip_completed (flip_completed t) = t.
Proof. destruct t. unfold flip_completed. simpl. by rewrite negb_involutive. Qed.

(** X1. Toggling the same identifier twice gives the collection back, and
    a toggle changes nothing but completion flags: the collection keeps
    its length, and at every position identifier, text, timestamp, due
    fields and notified flag are as before. *)
Theorem toggleTodo_involutive (i : jsstring) (todos : list Todo) :
  toggleTodo i (toggleTodo i todos) = todos
  ∧ (λ t, (id t, text t, createdAt t, dueDate t, dueTime t, notified t))
      <$> toggleTodo i todos
    = (λ t, (id t, text t, createdAt t, dueDate t, dueTime t, notified t))
      <$> todos.
Proof.
  unfold toggleTodo. split.
  - rewrite <- list_fmap_compose. apply fmap_fixed. intros t _. simpl.
    destruct (decide (id t = i)) as [E|E].
    + rewrite decide_True by done. apply flip_completed_involutive.
    + by rewrite decide_False.
  - rewrite <- list_fmap_compose. apply list_fmap_ext. intros k t _. simpl.
    by case_decide.
Qed.

(** X2. [deleteTodo] leaves no task with the identifier, keeps every other
    task in its place in the order, does nothing the second time, and two
    deletions can be done in either order. *)
Theorem deleteTodo_removes_the_identifier (i : jsstring) (todos : list Todo) :
  (i ∉ id <$> deleteTodo i todos)
  ∧ deleteTodo i todos `sublist_of` todos
  ∧ (∀ t, t ∈ deleteTodo i todos ↔ t ∈ todos ∧ id t ≠ i)
  ∧ deleteTodo i (deleteTodo i todos) = deleteTodo i todos
  ∧ ∀ j, deleteTodo i (deleteTodo j todos) = deleteTodo j (deleteTodo i todos).
Proof.
  assert (∀ t, t ∈ deleteTodo i todos ↔ t ∈ todos ∧ id t ≠ i) as Hin.
  { intros t. unfold deleteTodo. rewrite list_elem_of_filter. tauto. }
  split; [|split; [|split; [|split]]].
  - intros (t & E & Ht)%list_elem_of_fmap. apply Hin in Ht as [_ Hne]. done.
  - apply sublist_filter.
  - exact Hin.
  - apply filter_all. intros t Ht. by apply Hin in Ht as [_ ?].
  - intros j. clear Hin. unfold deleteTodo.
    induction todos as [|a l IH]; [done|].
    rewrite !filter_cons.
    destruct (decide (id a ≠ i)), (decide (id a ≠ j));
      rewrite ?filter_cons, ?decide_True, ?decide_False by done;
      by rewrite ?IH.
Qed.

(** X3. Deleting the task just added, whose UUID no other task holds,
    gives back the collection as it was before the addition. *)
Theorem deleteTodo_undoes_addTodo (randomUUID : jsstring) (Date_now : Z)
    (x : jsstring) (dd dt : option jsstring) (todos : list Todo) :
  randomUUID ∉ id <$> todos →
  deleteTodo randomUUID (addTodo randomUUID Date_now x dd dt todos) = todos.
Proof.
  intros Hfresh. unfold deleteTodo, addTodo.
  rewrite filter_cons, decide_False by (simpl; tauto).
  apply filter_all. intros t Ht E. apply Hfresh. rewrite <- E.
  by apply list_elem_of_fmap_2.
Qed.

Lemma deleteTodo_undoes_addTodo_witness :
  (js "e5" ∉ id <$> example_todos)
  ∧ deleteTodo (js "e5")
      (addTodo (js "e5") nine_o_clock (js "Water plants") None None
         example_todos) = example_todos.
Proof.
  assert (js "e5" ∉ id <$> example_todos) as H by compute_done.
  split; [exact H|].
  exact (deleteTodo_undoes_addTodo (js "e5") nine_o_clock
           (js "Water plants") None None example_todos H).
Defined.

Lemma merge_overlay t u1 u2 : merge (merge t u1) u2 = merge t (overlay u1 u2).
Proof.
  destruct u1 as [a1 b1 c1 d1 e1], u2 as [a2 b2 c2 d2 e2].
  unfold merge, overlay. simpl.
  by destruct a2, b2, c2, d2, e2.
Qed.

(** X4. Two edits of the same identifier are one edit with the second
    payload laid over the first; in particular the same edit twice is
    that edit once; and an edit with an empty payload changes nothing. *)
Theorem editTodo_composes (i : jsstring) (u1 u2 : TodoUpdatePayload)
    (todos : list Todo) :
  editTodo i u2 (editTodo i u1 todos) = editTodo i (overlay u1 u2) todos
  ∧ editTodo i u1 (editTodo i u1 todos) = editTodo i u1 todos
  ∧ editTodo i no_updates todos = todos.
Proof.
  assert (∀ v1 v2, editTodo i v2 (editTodo i v1 todos)
                   = editTodo i (overlay v1 v2) todos) as Hcomp.
  { intros v1 v2. unfold editTodo. rewrite <- list_fmap_compose.
    apply list_fmap_ext. intros k t _. simpl.
    destruct (decide (id t = i)) as [E|E].
    - rewrite decide_True by done. apply merge_overlay.
    - by rewrite decide_False. }
  split; [apply Hcomp|]. split.
  - rewrite Hcomp. unfold editTodo. apply list_fmap_ext. intros k t _.
    case_decide; [|done]. rewrite <- merge_overlay.
    destruct u1 as [a b c d e]. unfold merge. simpl.
    by destruct a, b, c, d, e.
  - unfold editTodo. apply fmap_fixed. intros t _.
    case_decide; [|done]. by destruct t.
Qed.

(** X5. [clearCompleted] leaves exactly what the active view shows; a
    second [clearCompleted] changes nothing; afterwards the completed view
    is empty, the completed count is zero and the active count is what it
    was. *)
Theorem clearCompleted_leaves_the_active_view (todos : list Todo) :
  clearCompleted todos = filteredTodos Active todos
  ∧ clearCompleted (clearCompleted todos) = clearCompleted todos
  ∧ filteredTodos Completed (clearCompleted todos) = []
  ∧ completedCount (clearCompleted todos) = 0%nat
  ∧ activeCount (clearCompleted todos) = activeCount todos.
Proof.
  assert (∀ t, t ∈ clearCompleted todos → completed t = false) as Hact.
  { intros t [Ht _]%list_elem_of_filter. by destruct (completed t). }
  assert (clearCompleted (clearCompleted todos) = clearCompleted todos) as Hid.
  { apply filter_all. intros t Ht. by rewrite (Hact t Ht). }
  split; [done|]. split; [done|]. split; [|split].
  - apply filter_none. intros t Ht. simpl. rewrite (Hact t Ht). by intros [].
  - unfold completedCount, activeCount.
    change (filter (λ todo, negb (completed todo)) (clearCompleted todos))
      with (clearCompleted (clearCompleted todos)).
    rewrite Hid. lia.
  - unfold activeCount.
    change (filter (λ todo, negb (completed todo)) (clearCompleted todos))
      with (clearCompleted (clearCompleted todos)).
    by rewrite Hid.
Qed.

(** X6. The counts handed to the footer are the sizes of the two filtered
    views, and add up to the size of the collection. *)
Theorem counts_are_view_sizes (todos : list Todo) :
  activeCount todos = length (filteredTodos Active todos)
  ∧ completedCount todos = length (filteredTodos Completed todos)
  ∧ (activeCount todos + completedCount todos = length todos)%nat.
Proof.
  pose proof (Permutation_length (active_completed_split todos)) as Hlen.
  rewrite length_app in Hlen.
  unfold completedCount, activeCount, filteredTodos. simpl.
  repeat split; lia.
Qed.

Lemma activeCount_app (l k : list Todo) :
  activeCount (l ++ k) = (activeCount l + activeCount k)%nat.
Proof. unfold activeCount. by rewrite filter_app, length_app. Qed.

Lemma toggleTodo_at (t : Todo) (l1 l2 : list Todo) :
  id t ∉ id <$> l1 → id t ∉ id <$> l2 →
  toggleTodo (id t) (l1 ++ t :: l2) = l1 ++ flip_completed t :: l2.
Proof.
  intros H1 H2. unfold toggleTodo. rewrite fmap_app, fmap_cons.
  rewrite decide_True by done. f_equal; [|f_equal].
  - apply fmap_fixed. intros x Hx. rewrite decide_False; [done|].
    intros E. apply H1. rewrite <- E. by apply list_elem_of_fmap_2.
  - apply fmap_fixed. intros x Hx. rewrite decide_False; [done|].
    intros E. apply H2. rewrite <- E. by apply list_elem_of_fmap_2.
Qed.

(** X7. In a collection with unique identifiers, toggling a task that is
    there moves exactly one task from one count to the other: a completed
    task becomes active, an active one completed. *)
Theorem toggleTodo_moves_one_task (t : Todo) (todos : list Todo) :
  NoDup (id <$> todos) → t ∈ todos →
  if completed t
  then activeCount (toggleTodo (id t) todos) = S (activeCount todos)
       ∧ S (completedCount (toggleTodo (id t) todos)) = completedCount todos
  else S (activeCount (toggleTodo (id t) todos)) = activeCount todos
       ∧ completedCount (toggleTodo (id t) todos) = S (completedCount todos).
Proof.
  intros Hnd (l1 & l2 & ->)%list_elem_of_split.
  rewrite fmap_app, fmap_cons in Hnd.
  apply NoDup_app in Hnd as (_ & H1 & [H2 _]%NoDup_cons).
  rewrite toggleTodo_at.
  2:{ intros Hin. apply (H1 _ Hin). left. }
  2:{ done. }
  unfold completedCount. rewrite !activeCount_app, !length_app.
  change (activeCount (flip_completed t :: l2))
    with (activeCount ([flip_completed t] ++ l2)).
  change (activeCount (t :: l2)) with (activeCount ([t] ++ l2)).
  rewrite !activeCount_app. cbn [length].
  pose proof (length_filter (λ todo, negb (completed todo)) l1).
  pose proof (length_filter (λ todo, negb (completed todo)) l2).
  unfold activeCount in *. rewrite !filter_cons. simpl.
  destruct (completed t); simpl; lia.
Qed.

Lemma toggleTodo_moves_one_task_witness :
  NoDup (id <$> example_todos) ∧ report ∈ example_todos
  ∧ activeCount (toggleTodo (id report) example_todos)
    = S (activeCount example_todos).
Proof.
  assert (NoDup (id <$> example_todos)) as Hnd by compute_done.
  assert (report ∈ example_todos) as Hin by compute_done.
  split; [exact Hnd|]. split; [exact Hin|].
  exact (proj1 (toggleTodo_moves_one_task report example_todos Hnd Hin)).
Defined.

(** ** Runs of actions *)

Section RunProperties.

Context `{host : DateHost}.

(** One action: the identities after it are those before it, in order,
    less what it removed, with the new one in front if it added. *)
Lemma step_identities (a : action) (todos : list Todo) :
  identity <$> step todos a `sublist_of` added_by a ++ (identity <$> todos).
Proof.
  destruct a as [u n x dd dt|i|i|i updates| |now]; simpl.
  - done.
  - unfold toggleTodo. rewrite <- list_fmap_compose.
    erewrite list_fmap_ext; [reflexivity|]. intros k t _. simpl.
    by case_decide.
  - apply fmap_sublist, sublist_filter.
  - unfold editTodo. rewrite <- list_fmap_compose.
    erewrite list_fmap_ext; [reflexivity|]. intros k t _. simpl.
    by case_decide.
  - apply fmap_sublist, sublist_filter.
  - unfold scan. rewrite checkNotifications_eq. simpl. unfold mark_all.
    rewrite <- list_fmap_compose.
    erewrite list_fmap_ext; [reflexivity|]. intros k t _. simpl.
    by case_decide.
Qed.

(** X8. No run of actions alters or duplicates an identity: the pairs of
    identifier and creation timestamp after the run are, in order, the
    pairs the run added (newest first) followed by the pairs it started
    with, less those of the tasks removed. *)
Theorem run_keeps_identities (actions : list action) (todos : list Todo) :
  identity <$> run actions todos
    `sublist_of` added actions ++ (identity <$> todos).
Proof.
  revert todos. induction actions as [|a rest IH]; intros todos; simpl.
  - done.
  - etrans; [apply IH|]. rewrite <- app_assoc.
    apply sublist_app; [done|]. apply step_identities.
Qed.

Lemma step_ids (a : action) (todos : list Todo) :
  id <$> step todos a `sublist_of` (added_by a).*1 ++ (id <$> todos).
Proof.
  pose proof (fmap_sublist fst _ _ (step_identities a todos)) as H.
  rewrite fmap_app, <- !list_fmap_compose in H. exact H.
Qed.

(** X9. Identifiers stay unique through every run of actions in which each
    [Add] draws a UUID that is not in use at that moment. *)
Theorem run_keeps_identifiers_unique (actions : list action)
    (todos : list Todo) :
  NoDup (id <$> todos) → draws_fresh actions todos →
  NoDup (id <$> run actions todos).
Proof.
  revert todos. induction actions as [|a rest IH]; intros todos Hnd Hfresh.
  - done.
  - destruct Hfresh as [Ha Hrest]. simpl. apply IH; [|done].
    pose proof (step_ids a todos) as Hs.
    destruct a; simpl in *;
      try (by eapply sublist_NoDup; [exact Hnd|exact Hs]).
    by constructor.
Qed.

End RunProperties.

Lemma run_keeps_identifiers_unique_witness :
  NoDup (id <$> example_todos)
  ∧ draws_fresh (host := isoLocal 0)
      [Toggle (js "a1"); Add (js "e5") nine_o_clock (js "Water plants") None None;
       Scan nine_o_clock; Delete (js "b2"); ClearCompleted] example_todos
  ∧ NoDup (id <$> run (host := isoLocal 0)
      [Toggle (js "a1"); Add (js "e5") nine_o_clock (js "Water plants") None None;
       Scan nine_o_clock; Delete (js "b2"); ClearCompleted] example_todos).
Proof.
  assert (NoDup (id <$> example_todos)) as Hnd by compute_done.
  assert (draws_fresh (host := isoLocal 0)
      [Toggle (js "a1"); Add (js "e5") nine_o_clock (js "Water plants") None None;
       Scan nine_o_clock; Delete (js "b2"); ClearCompleted] example_todos)
    as Hfresh.
  { simpl. repeat split. compute_done. }
  split; [exact Hnd|]. split; [exact Hfresh|].
  exact (run_keeps_identifiers_unique (host := isoLocal 0) _ _ Hnd Hfresh).
Defined.

(** ** More on the scanner *)

Section ScannerFurther.

Context `{host : DateHost}.

Lemma mark_all_nil (todos : list Todo) : mark_all [] todos = todos.
Proof. unfold mark_all. apply fmap_fixed. by intros t _. Qed.

Lemma set_notified_fixed (t : Todo) :
  notified t = Some true → set_notified t = t.
Proof. destruct t. simpl. by intros ->. Qed.

(** X10. A scan pass changes nothing in the collection but notified
    flags, and those only towards true: the collection keeps its length,
    and at every position the task is the one before or that one with
    [notified] set to true; so identifier, text, completion, timestamp
    and due fields are untouched and a flag that was true stays true. This
    does not depend on identifiers being unique. *)
Theorem scan_only_sets_notified (now : Z) (todos : list Todo) :
  Forall2
    (λ t t', (t' = t ∨ t' = set_notified t)
             ∧ id t' = id t ∧ text t' = text t ∧ completed t' = completed t
             ∧ createdAt t' = createdAt t ∧ dueDate t' = dueDate t
             ∧ dueTime t' = dueTime t
             ∧ (notified t = Some true → notified t' = Some true))
    todos (scan now todos).2.
Proof.
  unfold scan. rewrite checkNotifications_eq. simpl. unfold mark_all.
  apply Forall2_fmap_r, Forall_Forall2_diag, Forall_forall. intros t _.
  unfold compose. case_decide; simpl; repeat split; auto.
Qed.

(** Nothing fires in the collection a pass at the same time has left. *)
Lemma scan_leaves_nothing_due (now : Z) (todos : list Todo) :
  filter (λ t, fires now t) (scan now todos).2 = [].
Proof.
  apply filter_none. intros t'. unfold scan. rewrite checkNotifications_eq.
  simpl. unfold mark_all. intros (t & -> & Ht)%list_elem_of_fmap.
  case_decide as Hin.
  - intros F%Is_true_true_1%fires_pending.
    by rewrite pending_set_notified in F.
  - intros F. apply Hin. apply list_elem_of_fmap_2.
    by apply list_elem_of_filter.
Qed.

(** X11. A second pass at the same time raises nothing and changes
    nothing, whatever the collection: the pass the effect runs again
    right after its own update of the collection is silent. *)
Theorem scan_again_is_silent (now : Z) (todos : list Todo) :
  scan now (scan now todos).2 = ([], (scan now todos).2).
Proof.
  unfold scan at 1. rewrite checkNotifications_eq.
  rewrite scan_leaves_nothing_due. simpl. by rewrite mark_all_nil.
Qed.

(** X12. A pass changes the collection exactly when it raises a
    notification. *)
Theorem scan_changes_iff_it_alerts (now : Z) (todos : list Todo) :
  (scan now todos).1 = [] ↔ (scan now todos).2 = todos.
Proof.
  unfold scan. rewrite checkNotifications_eq. simpl. split.
  - intros ->%fmap_nil_inv. apply mark_all_nil.
  - intros E.
    rewrite (filter_none (λ t, fires now t) todos); [done|].
    intros t Ht F.
    pose proof (fmap_fixed_inv _ _ E t Ht) as Ht'. simpl in Ht'.
    rewrite decide_True in Ht'.
    2:{ apply list_elem_of_fmap_2. by apply list_elem_of_filter. }
    apply Is_true_true_1, fires_pending in F.
    rewrite <- Ht', pending_set_notified in F. done.
Qed.

(** X13. Once every task with an identifier is marked notified, an edit
    of that identifier that does not mention [notified] never brings an
    alert back, whatever it does to the due date, the due time or the
    completion flag: no later pass raises anything for the identifier. *)
Theorem edit_of_notified_task_stays_silent (i : jsstring)
    (updates : TodoUpdatePayload) (todos : list Todo) (nows : list Z) :
  (∀ t, t ∈ todos → id t = i → notified t = Some true) →
  u_notified updates = None →
  alerts_for i nows (editTodo i updates todos) = [].
Proof.
  intros Hn Hu. apply quiet_alerts. intros t'. unfold editTodo.
  intros (t & -> & Ht)%list_elem_of_fmap.
  case_decide as E; intros E'.
  - unfold pending, merge. simpl. rewrite Hu. simpl.
    rewrite (Hn t Ht E). simpl. by rewrite andb_false_r.
  - done.
Qed.

Lemma editTodo_at (t : Todo) (updates : TodoUpdatePayload)
    (l1 l2 : list Todo) :
  NoDup (id <$> l1 ++ t :: l2) →
  editTodo (id t) updates (l1 ++ t :: l2) = l1 ++ merge t updates :: l2.
Proof.
  intros Hnd. rewrite fmap_app, fmap_cons in Hnd.
  apply NoDup_app in Hnd as (_ & H1 & [H2 _]%NoDup_cons).
  unfold editTodo. rewrite fmap_app, fmap_cons.
  rewrite decide_True by done. f_equal; [|f_equal].
  - apply fmap_fixed. intros x Hx. rewrite decide_False; [done|].
    intros E. apply (H1 (id t)); [|left]. rewrite <- E.
    by apply list_elem_of_fmap_2.
  - apply fmap_fixed. intros x Hx. rewrite decide_False; [done|].
    intros E. apply H2. rewrite <- E. by apply list_elem_of_fmap_2.
Qed.

(** X14. An edit that does mention [notified], with a value that is not
    true, arms the task again: in a collection with unique identifiers,
    if the edited task is not completed and its due instant has arrived,
    the pass on the edited collection raises the reminders of the firing
    tasks before it, then the reminder of the edited task, then those of
    the firing tasks after it, and leaves the edited task marked notified,
    whether it had been notified before or not. *)
Theorem edit_clearing_notified_rearms (t : Todo) (updates : TodoUpdatePayload)
    (l1 l2 : list Todo) (flag : option bool) (now due : Z) :
  NoDup (id <$> l1 ++ t :: l2) →
  u_notified updates = Some flag → truthy_bool flag = false →
  completed (merge t updates) = false →
  truthy_string (dueDate (merge t updates)) = true →
  truthy_string (dueTime (merge t updates)) = true →
  dueDateTime (merge t updates) = Some due → due ≤ now →
  (scan now (editTodo (id t) updates (l1 ++ t :: l2))).1
  = (reminder <$> filter (λ x, fires now x) l1)
      ++ reminder (merge t updates)
      :: (reminder <$> filter (λ x, fires now x) l2)
  ∧ (scan now (editTodo (id t) updates (l1 ++ t :: l2))).2 !! length l1
    = Some (set_notified (merge t updates)).
Proof.
  intros Hnd Hu Hflag Hc Hdd Hdt Hdue Hle.
  rewrite editTodo_at by done.
  assert (fires now (merge t updates) = true) as F.
  { unfold fires, pending. rewrite Hdd, Hdt, Hc, Hdue. simpl.
    rewrite Hu. simpl. rewrite Hflag. simpl. by apply bool_decide_eq_true. }
  assert (NoDup (id <$> l1 ++ merge t updates :: l2)) as Hnd'.
  { by rewrite fmap_app, fmap_cons in *. }
  destruct (scan_around now l1 l2 (merge t updates) Hnd') as [E _].
  rewrite F, (settle_fired now _ F) in E. rewrite E. cbn [fst snd].
  split; [done|].
  rewrite list_lookup_middle; [done|]. by rewrite length_fmap.
Qed.

End ScannerFurther.

Lemma edit_of_notified_task_stays_silent_witness :
  (∀ t, t ∈ [set_notified milk; laundry] → id t = js "a1" →
        notified t = Some true)
  ∧ alerts_for (host := isoLocal 0) (js "a1")
      [nine_o_clock; nine_o_clock + 86400000]
      (editTodo (js "a1") reschedule [set_notified milk; laundry]) = [].
Proof.
  assert (∀ t, t ∈ [set_notified milk; laundry] → id t = js "a1" →
               notified t = Some true) as H.
  { intros t Ht E. apply elem_of_cons in Ht as [->|Ht]; [done|].
    apply list_elem_of_singleton in Ht as ->. by vm_compute in E. }
  split; [exact H|].
  exact (edit_of_notified_task_stays_silent (host := isoLocal 0) (js "a1")
           reschedule [set_notified milk; laundry]
           [nine_o_clock; nine_o_clock + 86400000] H eq_refl).
Defined.

Lemma edit_clearing_notified_rearms_witness :
  NoDup (id <$> [] ++ set_notified milk :: [laundry])
  ∧ (scan (host := isoLocal 0) nine_o_clock
       (editTodo (js "a1") rearm ([] ++ set_notified milk :: [laundry]))).1
    = [reminder milk].
Proof.
  assert (NoDup (id <$> [] ++ set_notified milk :: [laundry])) as Hnd
    by compute_done.
  split; [exact Hnd|].
  refine (proj1 (edit_clearing_notified_rearms (host := isoLocal 0)
                   (set_notified milk) rearm [] [laundry]
                   (Some false) nine_o_clock nine_o_clock
                   Hnd eq_refl eq_refl eq_refl eq_refl eq_refl _ _));
    compute_done.
Defined.

(** ** Permission *)

(** X15. The permission effect calls [requestPermission] exactly when the
    component is mounted, the host has [Notification], and the host's
    permission is undecided. Starting from the initial state, the scanner
    can raise a notification only if the component is mounted, the host
    has [Notification], and the host's permission is granted or the
    request resolved to granted. Without [Notification] the state stays
    [default] and the scanner does nothing. *)
Theorem permission_gates_the_scanner `{host : DateHost} (isMounted : bool)
    (platform : Platform) (now : Z) (todos : list Todo) :
  let p := permissionEffect isMounted platform
             (st_notificationPermission initialState) in
  (p.2 = true ↔
     isMounted = true ∧ Notification_in_window platform = true
     ∧ Notification_permission platform = default)
  ∧ ((notificationEffect isMounted p.1 now todos).1 ≠ [] →
     isMounted = true ∧ Notification_in_window platform = true
     ∧ (Notification_permission platform = granted
        ∨ (Notification_permission platform = default
           ∧ requestPermission_resolves platform = Some granted)))
  ∧ (Notification_in_window platform = false →
     p.1 = default ∧ notificationEffect isMounted p.1 now todos = ([], todos)).
Proof.
  destruct platform as [w perm res]. simpl.
  destruct isMounted, w, perm, res as [[]|];
    (split; [|split]); simpl; try done; try (intuition congruence);
    by auto.
Qed.

(** ** Persistent store, continued *)

(** X16. The store effects touch one key: a save leaves every other key
    of the storage as it was, and so does a load; and a load leaves the
    whole storage as it was unless it removes the slot, which it does only
    when it hands nothing to [setTodos]. *)
Theorem store_effects_touch_one_key (k : jsstring) (todos : list Todo)
    (localStorage : Storage) :
  k ≠ LOCAL_STORAGE_KEY →
  getItem k (save todos localStorage) = getItem k localStorage
  ∧ ∀ set after, loadEffect localStorage = Normal (set, after) →
      getItem k after = getItem k localStorage
      ∧ (after = localStorage
         ∨ (after = removeItem LOCAL_STORAGE_KEY localStorage ∧ set = None)).
Proof.
  intros Hk. split.
  - unfold save, saveEffect, getItem, setItem. by apply lookup_insert_ne.
  - intros set after. unfold loadEffect, JSON_parse_call, getItem, removeItem.
    destruct (localStorage !! LOCAL_STORAGE_KEY) as [[|c stored]|]; simpl;
      try (intros [= <- <-]; by auto).
    destruct (JSON_parse _); simpl; intros [= <- <-]; [by auto|].
    split; [by apply lookup_delete_ne|by auto].
Qed.

Lemma store_effects_touch_one_key_witness :
  js "theme" ≠ LOCAL_STORAGE_KEY
  ∧ getItem (js "theme") (save example_todos {[js "theme" := js "dark"]})
    = getItem (js "theme") {[js "theme" := js "dark"]}.
Proof.
  assert (js "theme" ≠ LOCAL_STORAGE_KEY) as H by done.
  split; [exact H|].
  exact (proj1 (store_effects_touch_one_key (js "theme") example_todos
                  {[js "theme" := js "dark"]} H)).
Defined.

(** X17. The last save wins: a save over a save leaves the storage the
    last save alone would have left, and a load after it holds the
    collection saved last. *)
Theorem last_save_wins (first last : list Todo) (localStorage : Storage) :
  valid last →
  save last (save first localStorage) = save last localStorage
  ∧ load (save last (save first localStorage))
    = Normal (Some last, save last localStorage).
Proof.
  intros Hv.
  assert (save last (save first localStorage) = save last localStorage) as E.
  { unfold save, saveEffect, setItem. apply insert_insert_eq. }
  split; [exact E|]. rewrite E. apply load_any_layout.
  - by apply storable_todosToJSON.
  - by apply todosOfJSON_todosToJSON.
Qed.

Lemma last_save_wins_witness :
  valid [milk]
  ∧ save [milk] (save example_todos ∅) = save [milk] ∅.
Proof.
  assert (valid [milk]) as Hv.
  { unfold valid. repeat constructor;
      unfold safe_integer, MAX_SAFE_INTEGER; simpl; lia. }
  split; [exact Hv|].
  exact (proj1 (last_save_wins example_todos [milk] ∅ Hv)).
Defined.

(** X18. Saving loses nothing: two collections with safe timestamps that
    are written as the same text, or that leave the same storage, are the
    same collection. *)
Theorem save_is_injective (a b : list Todo) (localStorage : Storage) :
  valid a → valid b →
  (stringify (todosToJSON a) = stringify (todosToJSON b) → a = b)
  ∧ (save a localStorage = save b localStorage → a = b).
Proof.
  intros Ha Hb.
  assert (stringify (todosToJSON a) = stringify (todosToJSON b) → a = b) as Ht.
  { intros E.
    pose proof (JSON_parse_stringify _ (storable_todosToJSON a Ha)) as Pa.
    pose proof (JSON_parse_stringify _ (storable_todosToJSON b Hb)) as Pb.
    assert (todosToJSON a = todosToJSON b) as Ej by congruence.
    pose proof (todosOfJSON_todosToJSON a Ha) as Va.
    pose proof (todosOfJSON_todosToJSON b Hb) as Vb.
    congruence. }
  split; [exact Ht|]. intros E. apply Ht.
  apply (f_equal (getItem LOCAL_STORAGE_KEY)) in E.
  unfold save, saveEffect, getItem, setItem in E.
  rewrite !lookup_insert_eq in E. congruence.
Qed.

Lemma save_is_injective_witness :
  valid [milk] ∧ valid [laundry]
  ∧ save [milk] ∅ ≠ save [laundry] ∅.
Proof.
  assert (valid [milk]) as Ha.
  { unfold valid. repeat constructor;
      unfold safe_integer, MAX_SAFE_INTEGER; simpl; lia. }
  assert (valid [laundry]) as Hb.
  { unfold valid. repeat constructor;
      unfold safe_integer, MAX_SAFE_INTEGER; simpl; lia. }
  split; [exact Ha|]. split; [exact Hb|].
  intros E. by apply (proj2 (save_is_injective [milk] [laundry] ∅ Ha Hb)) in E.
Defined.

(** X19. The load effect does not look at the shape of what it parsed: a
    slot that holds well-formed JSON, whatever it denotes, is never
    removed, and the value is handed to [setTodos] as it is. *)
Theorem load_keeps_well_formed_slot (localStorage : Storage)
    (stored : jsstring) (v : json) :
  getItem LOCAL_STORAGE_KEY localStorage = Some stored →
  JSON_parse stored = Some v →
  loadEffect localStorage = Normal (Some v, localStorage).
Proof.
  intros Hget Hparse. unfold loadEffect, JSON_parse_call.
  rewrite Hget, Hparse. by destruct stored.
Qed.

Lemma load_keeps_well_formed_slot_witness :
  getItem LOCAL_STORAGE_KEY {[LOCAL_STORAGE_KEY := js "42"]} = Some (js "42")
  ∧ JSON_parse (js "42") = Some (JNum 42)
  ∧ loadEffect {[LOCAL_STORAGE_KEY := js "42"]}
    = Normal (Some (JNum 42), {[LOCAL_STORAGE_KEY := js "42"]})
  ∧ held (Some (JNum 42)) = None.
Proof.
  assert (getItem LOCAL_STORAGE_KEY {[LOCAL_STORAGE_KEY := js "42"]}
          = Some (js "42")) as Hget by apply lookup_singleton_eq.
  assert (JSON_parse (js "42") = Some (JNum 42)) as Hparse
    by (vm_compute; reflexivity).
  split; [exact Hget|]. split; [exact Hparse|]. split; [|reflexivity].
  exact (load_keeps_well_formed_slot _ _ _ Hget Hparse).
Defined.

(** ** Mounting *)

(** X20. Mounting on the storage a save left restores the collection
    saved, with the initial filter and permission, and leaves the storage
    exactly as it was: the save effect of the first commit, which still
    sees the empty initial collection, writes nothing. *)
Theorem mount_restores_what_was_saved (todos : list Todo)
    (localStorage : Storage) :
  valid todos →
  mount (save todos localStorage)
  = Normal (Some ({| st_todos := todos; st_filter := All;
                     st_isMounted := true;
                     st_notificationPermission := default |},
                  save todos localStorage)).
Proof.
  intros Hv. unfold mount.
  rewrite (loadEffect_stored _ (stringify (todosToJSON todos))
             (todosToJSON todos)).
  - cbn [held fst snd]. rewrite todosOfJSON_todosToJSON by done.
    simpl. do 3 f_equal.
    unfold save, saveEffect, setItem. apply insert_insert_eq.
  - unfold save, saveEffect, getItem, setItem. apply lookup_insert_eq.
  - by destruct (stringify_head _ (storable_todosToJSON todos Hv))
      as (c & r & -> & _).
  - by apply JSON_parse_stringify, storable_todosToJSON.
Qed.

Lemma mount_restores_what_was_saved_witness :
  valid example_todos
  ∧ mount (save example_todos ∅)
    = Normal (Some ({| st_todos := example_todos; st_filter := All;
                       st_isMounted := true;
                       st_notificationPermission := default |},
                    save example_todos ∅)).
Proof.
  assert (valid example_todos) as Hv.
  { unfold valid, example_todos. repeat constructor;
      unfold safe_integer, MAX_SAFE_INTEGER; simpl; lia. }
  split; [exact Hv|].
  exact (mount_restores_what_was_saved example_todos ∅ Hv).
Defined.

(** X21. On a slot that is absent, holds the empty string, or holds text
    [JSON.parse] rejects, mounting completes: the component starts with
    the empty collection, and the save effect of the second commit leaves
    the text of the empty array in the slot. *)
Theorem mount_starts_empty_on_bad_slot (localStorage : Storage) :
  getItem LOCAL_STORAGE_KEY localStorage = None
  ∨ getItem LOCAL_STORAGE_KEY localStorage = Some []
  ∨ (∃ stored, getItem LOCAL_STORAGE_KEY localStorage = Some stored
               ∧ JSON_parse stored = None) →
  mount localStorage
  = Normal (Some ({| st_todos := []; st_filter := All;
                     st_isMounted := true;
                     st_notificationPermission := default |},
                  setItem LOCAL_STORAGE_KEY (js "[]") localStorage))
  ∧ getItem LOCAL_STORAGE_KEY
      (setItem LOCAL_STORAGE_KEY (js "[]") localStorage) = Some (js "[]")
  ∧ JSON_parse (js "[]") = Some (JArr []).
Proof.
  intros Hslot. split; [|split; [apply lookup_insert_eq|reflexivity]].
  unfold mount, loadEffect, JSON_parse_call.
  destruct Hslot as [->|[->|(stored & -> & Hparse)]]; try done.
  destruct stored as [|c stored]; [done|]. simpl. rewrite Hparse. simpl.
  do 3 f_equal. unfold setItem, removeItem. apply insert_delete_eq.
Qed.

Lemma mount_starts_empty_on_bad_slot_witness :
  (∃ stored, getItem LOCAL_STORAGE_KEY {[LOCAL_STORAGE_KEY := js "{oops"]}
             = Some stored ∧ JSON_parse stored = None)
  ∧ mount {[LOCAL_STORAGE_KEY := js "{oops"]}
    = Normal (Some ({| st_todos := []; st_filter := All;
                       st_isMounted := true;
                       st_notificationPermission := default |},
                    setItem LOCAL_STORAGE_KEY (js "[]")
                      {[LOCAL_STORAGE_KEY := js "{oops"]})).
Proof.
  assert (∃ stored, getItem LOCAL_STORAGE_KEY
                      {[LOCAL_STORAGE_KEY := js "{oops"]} = Some stored
                    ∧ JSON_parse stored = None) as H.
  { exists (js "{oops"). split; [apply lookup_singleton_eq|].
    vm_compute. reflexivity. }
  split; [exact H|].
  apply (mount_starts_empty_on_bad_slot {[LOCAL_STORAGE_KEY := js "{oops"]}).
  right. right. exact H.
Defined.

(** ** Every state a run reaches can be stored *)

Section RunStorable.

Context `{host : DateHost}.

Lemma step_valid (a : action) (todos : list Todo) :
  valid todos → timestamps_safe [a] → valid (step todos a).
Proof.
  intros Hv Ha. apply Forall_forall. intros t' Ht'.
  assert (identity t' ∈ added_by a ++ (identity <$> todos)) as Hin.
  { eapply elem_of_sublist; [|apply step_identities].
    by apply list_elem_of_fmap_2. }
  apply elem_of_app in Hin as [Hin|Hin].
  - apply Forall_cons in Ha as [Ha _].
    destruct a; simpl in Hin; try by apply elem_of_nil in Hin.
    apply list_elem_of_singleton in Hin. injection Hin as _ ->. exact Ha.
  - apply list_elem_of_fmap in Hin as (t & E & Ht).
    injection E as _ ->. unfold valid in Hv. rewrite Forall_forall in Hv.
    by apply Hv.
Qed.

(** X22. Whatever the user and the scanner do, the collection can always
    be stored and read back: after any run of actions whose [Add]s carry
    safe timestamps, from a collection with safe timestamps, saving the
    collection reached and loading it gives that collection again. *)
Theorem every_reached_state_round_trips (actions : list action)
    (todos : list Todo) (localStorage : Storage) :
  valid todos → timestamps_safe actions →
  valid (run actions todos)
  ∧ load (save (run actions todos) localStorage)
    = Normal (Some (run actions todos), save (run actions todos) localStorage).
Proof.
  intros Hv Hsafe.
  assert (valid (run actions todos)) as Hrun.
  { revert todos Hv. induction Hsafe as [|a rest Ha Hrest IH]; intros todos Hv.
    - done.
    - simpl. apply IH. apply step_valid; [done|]. by repeat constructor. }
  split; [exact Hrun|]. apply load_any_layout.
  - by apply storable_todosToJSON.
  - by apply todosOfJSON_todosToJSON.
Qed.

End RunStorable.

Lemma every_reached_state_round_trips_witness :
  valid example_todos
  ∧ timestamps_safe
      [Add (js "e5") nine_o_clock (js "Water plants") None None;
       Scan nine_o_clock; Toggle (js "b2"); ClearCompleted]
  ∧ valid (run (host := isoLocal 0)
      [Add (js "e5") nine_o_clock (js "Water plants") None None;
       Scan nine_o_clock; Toggle (js "b2"); ClearCompleted] example_todos).
Proof.
  assert (valid example_todos) as Hv.
  { unfold valid, example_todos. repeat constructor;
      unfold safe_integer, MAX_SAFE_INTEGER; simpl; lia. }
  assert (timestamps_safe
      [Add (js "e5") nine_o_clock (js "Water plants") None None;
       Scan nine_o_clock; Toggle (js "b2"); ClearCompleted]) as Hs.
  { unfold timestamps_safe.
    repeat (apply Forall_cons; split); done. }
  split; [exact Hv|]. split; [exact Hs|].
  exact (proj1 (every_reached_state_round_trips (host := isoLocal 0)
                  _ example_todos ∅ Hv Hs)).
Defined.

(** ** The view *)

(** X23. What [App] renders. Nothing before the component is mounted.
    Once mounted: the two permission banners are never shown together, and
    neither is shown exactly when permission is granted; the message for
    an empty list is shown exactly when the collection is empty, so a
    collection that is not empty is rendered as a list even when the
    filter lets no task through; the list shows a subsequence of the
    collection; and the counts of the footer add up to its total. *)
Theorem render_is_consistent (st : AppState) :
  (render st = None ↔ st_isMounted st = false)
  ∧ ∀ v, render st = Some v →
      (pendingBanner v && deniedBanner v = false)
      ∧ (pendingBanner v || deniedBanner v = false
         ↔ st_notificationPermission st = granted)
      ∧ (listArea v = EmptyMessage ↔ st_todos st = [])
      ∧ (∀ shown, listArea v = TodoList shown →
           st_todos st ≠ []
           ∧ shown = filteredTodos (st_filter st) (st_todos st)
           ∧ shown `sublist_of` st_todos st)
      ∧ (f_activeCount (footer v) + f_completedCount (footer v)
         = f_totalTodos (footer v))%nat
      ∧ f_totalTodos (footer v) = length (st_todos st)
      ∧ f_currentFilter (footer v) = st_filter st.
Proof.
  destruct st as [todos f mounted perm]. unfold render. simpl. split.
  - by destruct mounted.
  - intros v. destruct mounted; simpl; [|done]. intros [= <-]. simpl.
    split; [by destruct perm|]. split; [by destruct perm|].
    split; [|split; [|split; [|done]]].
    + by destruct todos.
    + intros shown. destruct todos as [|t l]; simpl; [done|].
      intros [= <-].
      split; [done|]. split; [done|]. apply sublist_filter.
    + unfold completedCount, activeCount.
      pose proof (length_filter (λ todo, negb (completed todo)) todos). lia.
Qed.

Lemma render_is_consistent_witness :
  render {| st_todos := [milk; laundry]; st_filter := Completed;
            st_isMounted := true; st_notificationPermission := denied |}
  = Some {| pendingBanner := false; deniedBanner := true;
            listArea := TodoList [];
            footer := {| f_activeCount := 2; f_completedCount := 0;
                         f_currentFilter := Completed;
                         f_totalTodos := 2 |} |}
  ∧ [milk; laundry] ≠ [].
Proof.
  assert (render {| st_todos := [milk; laundry]; st_filter := Completed;
                    st_isMounted := true;
                    st_notificationPermission := denied |}
          = Some {| pendingBanner := false; deniedBanner := true;
                    listArea := TodoList [];
                    footer := {| f_activeCount := 2; f_completedCount := 0;
                                 f_currentFilter := Completed;
                                 f_totalTodos := 2 |} |}) as Hr
    by reflexivity.
  split; [exact Hr|].
  destruct (proj2 (render_is_consistent _) _ Hr) as (_ & _ & _ & Hl & _).
  exact (proj1 (Hl [] eq_refl)).
Defined.

(** ** The repository and the scanner together *)

Section RepositoryAndScanner.

Context `{host : DateHost}.

(** X24. For a UUID that is not in use, in a collection with unique
    identifiers. A task added with a due date and a due time that read as
    an instant: a pass at or after that instant raises a reminder with the
    task's text as its body, followed by exactly what the pass raises on
    the collection as it was, and leaves the new task, at the head, marked
    notified. A task added without a due date or without a due time: at
    every time the pass raises exactly what it raises on the collection as
    it was, and no run of passes raises anything for the new identifier. *)
Theorem added_task_is_alerted_when_due (randomUUID : jsstring) (Date_now : Z)
    (x : jsstring) (todos : list Todo) :
  randomUUID ∉ id <$> todos → NoDup (id <$> todos) →
  (∀ d tm due now,
     d ≠ [] → tm ≠ [] → Date_parse (d ++ js "T" ++ tm) = Some due →
     due ≤ now →
     (scan now (addTodo randomUUID Date_now x (Some d) (Some tm) todos)).1
     = {| title := js "Todo Reminder!"; body := x;
          icon := js "/favicon.ico" |} :: (scan now todos).1
     ∧ (scan now (addTodo randomUUID Date_now x (Some d) (Some tm) todos)).2
         !! 0%nat
       = Some {| id := randomUUID; text := x; completed := false;
                 createdAt := Date_now; dueDate := Some d;
                 dueTime := Some tm; notified := Some true |})
  ∧ (∀ dd dt,
       dd = None ∨ dt = None →
       (∀ now, (scan now (addTodo randomUUID Date_now x dd dt todos)).1
               = (scan now todos).1)
       ∧ ∀ nows,
           alerts_for randomUUID nows
             (addTodo randomUUID Date_now x dd dt todos) = []).
Proof.
  intros Hfresh Hnd.
  assert (∀ new, id new = randomUUID → NoDup (id <$> [] ++ new :: todos))
    as Hnd'.
  { intros new E. simpl. rewrite E. by constructor. }
  split.
  - intros d tm due now Hd Htm Hparse Hle. unfold addTodo.
    set (new := {| id := randomUUID; text := x; completed := false;
                   createdAt := Date_now; dueDate := Some d;
                   dueTime := Some tm; notified := Some false |}).
    assert (fires now new = true) as F.
    { apply fires_spec. exists d, tm, due. by repeat split. }
    destruct (scan_around now [] todos new (Hnd' new eq_refl)) as [E1 E2].
    rewrite F, (settle_fired now _ F) in E1. simpl in E1, E2.
    by rewrite E1, E2.
  - intros dd dt Hmissing.
    set (new := {| id := randomUUID; text := x; completed := false;
                   createdAt := Date_now; dueDate := dd;
                   dueTime := dt; notified := Some false |}).
    assert (pending new = false) as Hp.
    { unfold pending. simpl.
      destruct Hmissing as [-> | ->]; simpl; by rewrite ?andb_false_r. }
    split.
    + intros now. unfold addTodo. fold new.
      assert (fires now new = false) as F by (unfold fires; by rewrite Hp).
      destruct (scan_around now [] todos new (Hnd' new eq_refl)) as [E1 E2].
      rewrite F in E1. simpl in E1, E2. by rewrite E1, E2.
    + intros nows. apply quiet_alerts.
      intros t [->|Ht]%elem_of_cons E; [exact Hp|].
      exfalso. apply Hfresh. rewrite <- E. by apply list_elem_of_fmap_2.
Qed.

(** X25. No pass raises anything for an identifier whose task has been
    deleted, nor for one whose tasks are all completed, as long as they
    stay so. *)
Theorem deleted_or_completed_is_never_alerted (i : jsstring)
    (todos : list Todo) (nows : list Z) :
  alerts_for i nows (deleteTodo i todos) = []
  ∧ ((∀ t, t ∈ todos → id t = i → completed t = true) →
     alerts_for i nows todos = []).
Proof.
  split.
  - apply quiet_alerts. intros t [Hne _]%list_elem_of_filter E. done.
  - intros Hc. apply quiet_alerts. intros t Ht E.
    unfold pending. rewrite (Hc t Ht E). simpl. by rewrite andb_false_r.
Qed.

(** X26. An alert is not repeated after a reload: in a collection with
    unique identifiers and safe timestamps, once a task has fired in a
    pass and the collection of that pass has been saved, the collection a
    load then holds raises nothing for that task at any later time. *)
Theorem reload_does_not_repeat_alerts (now : Z) (t : Todo)
    (todos : list Todo) (localStorage : Storage) :
  valid todos → NoDup (id <$> todos) → t ∈ todos → fires now t = true →
  ∃ loaded after,
    load (save (scan now todos).2 localStorage) = Normal (Some loaded, after)
    ∧ ∀ nows, alerts_for (id t) nows loaded = [].
Proof.
  intros Hv Hnd Ht F.
  exists (scan now todos).2, (save (scan now todos).2 localStorage). split.
  - assert (valid (scan now todos).2) as Hv'.
    { apply (step_valid (Scan now)); [done|]. by repeat constructor. }
    apply load_any_layout.
    + by apply storable_todosToJSON.
    + by apply todosOfJSON_todosToJSON.
  - intros nows. apply quiet_alerts, quiet_after; auto.
Qed.

End RepositoryAndScanner.

Lemma added_task_is_alerted_when_due_witness :
  (js "e5" ∉ id <$> example_todos) ∧ NoDup (id <$> example_todos)
  ∧ (scan (host := isoLocal 0) nine_o_clock
       (addTodo (js "e5") nine_o_clock (js "Water plants")
          (Some (js "2024-01-01")) (Some (js "08:30")) example_todos)).1
    = {| title := js "Todo Reminder!"; body := js "Water plants";
         icon := js "/favicon.ico" |}
      :: (scan (host := isoLocal 0) nine_o_clock example_todos).1.
Proof.
  assert (js "e5" ∉ id <$> example_todos) as Hf by compute_done.
  assert (NoDup (id <$> example_todos)) as Hnd by compute_done.
  split; [exact Hf|]. split; [exact Hnd|].
  refine (proj1 (proj1 (added_task_is_alerted_when_due (host := isoLocal 0)
                   (js "e5") nine_o_clock (js "Water plants") example_todos
                   Hf Hnd)
            (js "2024-01-01") (js "08:30") (nine_o_clock - 1800000)
            nine_o_clock _ _ _ _)); compute_done.
Defined.

Lemma deleted_or_completed_is_never_alerted_witness :
  (∀ t, t ∈ example_todos → id t = js "c3" → completed t = true)
  ∧ alerts_for (host := isoLocal 0) (js "c3")
      [nine_o_clock; nine_o_clock + 60000] example_todos = [].
Proof.
  assert (∀ t, t ∈ example_todos → id t = js "c3" → completed t = true) as H.
  { intros t Ht E. unfold example_todos in Ht.
    repeat (apply elem_of_cons in Ht as [->|Ht]; [by vm_compute in E || done|]).
    by apply elem_of_nil in Ht. }
  split; [exact H|].
  exact (proj2 (deleted_or_completed_is_never_alerted (host := isoLocal 0)
                  (js "c3") example_todos
                  [nine_o_clock; nine_o_clock + 60000]) H).
Defined.

Lemma reload_does_not_repeat_alerts_witness :
  valid example_todos ∧ NoDup (id <$> example_todos) ∧ milk ∈ example_todos
  ∧ fires (host := isoLocal 0) nine_o_clock milk = true
  ∧ ∃ loaded after,
      load (save (scan (host := isoLocal 0) nine_o_clock example_todos).2 ∅)
        = Normal (Some loaded, after)
      ∧ ∀ nows, alerts_for (host := isoLocal 0) (id milk) nows loaded = [].
Proof.
  assert (valid example_todos) as Hv.
  { unfold valid, example_todos. repeat (apply Forall_cons; split); done. }
  assert (NoDup (id <$> example_todos)) as Hnd by compute_done.
  assert (milk ∈ example_todos) as Hin by compute_done.
  assert (fires (host := isoLocal 0) nine_o_clock milk = true) as F
    by (vm_compute; reflexivity).
  split; [exact Hv|]. split; [exact Hnd|]. split; [exact Hin|].
  split; [exact F|].
  exact (reload_does_not_repeat_alerts (host := isoLocal 0) nine_o_clock milk
           example_todos ∅ Hv Hnd Hin F).
Defined.
